(** * pyCANstreamViewer: ring-buffer store, frame decoder and windowed refresh

    A shallow embedding of [live_data_store.py], [decode.py] and the
    windowed part of [figure_block.py] / [main_window.py].

    - Python [float] and numpy [float64] are IEEE binary64 numbers: Rocq's
      primitive [float], with the kernel's own operations.
    - Python [int] is [Z].
    - A numpy array is a [list float]; indexing and slice assignment raise
      the exceptions numpy raises.
    - A Python method that mutates [self] and may raise is a function in the
      monad [Py S], which threads the object's state and keeps every
      mutation made before an exception was raised.
    - [dict] and [set] are stdpp's [gmap] and [gset]; a decoded frame is an
      association list, since the handler walks it in insertion order. *)

From Stdlib Require Import ZArith Lia Floats.
From stdpp Require Import base gmap sets list strings sorting.

Local Open Scope Z_scope.
Set Warnings "-clear-no-such-hyp".

(** ** IEEE binary64 facts used below *)

Module F64.

Local Open Scope float_scope.

Lemma is_nan_spec (x : float) : is_nan x = true <-> Prim2SF x = S754_nan.
Proof.
  unfold Prim2SF. destruct (is_nan x); [tauto|].
  split; [discriminate|].
  destruct (is_zero x); [discriminate|].
  destruct (is_infinity x); [discriminate|].
  destruct (Z.frexp x) as [r e].
  destruct (shr_fexp _ _ _ _ _) as [s e'].
  destruct (shr_m s); discriminate.
Qed.

Lemma not_nan_spec (x : float) : is_nan x = false <-> Prim2SF x <> S754_nan.
Proof.
  rewrite <- is_nan_spec. destruct (is_nan x); split; congruence.
Qed.

(** [is_finite x] holds exactly for zeros and (sub)normal numbers. *)
Definition SFfinite (s : spec_float) : bool :=
  match s with
  | S754_zero _ | S754_finite _ _ _ => true
  | _ => false
  end.

Lemma SFcompare_refl (s : spec_float) :
  s <> S754_nan -> SFcompare s s = Some Eq.
Proof.
  destruct s as [[]|[]| |[] m e]; simpl; try congruence;
    rewrite Z.compare_refl, Pos.compare_cont_refl; reflexivity.
Qed.

Lemma is_finite_spec (x : float) : is_finite x = SFfinite (Prim2SF x).
Proof.
  unfold is_finite, is_infinity.
  destruct (is_nan x) eqn:Hn.
  - apply is_nan_spec in Hn. rewrite Hn. reflexivity.
  - apply not_nan_spec in Hn. simpl.
    rewrite FloatAxioms.eqb_spec, FloatAxioms.abs_spec.
    change (Prim2SF infinity) with (S754_infinity false).
    destruct (Prim2SF x) as [[]|[]| |[] m e]; try reflexivity; congruence.
Qed.

Lemma finite_not_nan (x : float) : is_finite x = true -> is_nan x = false.
Proof.
  unfold is_finite. destruct (is_nan x); [discriminate|reflexivity].
Qed.

(** *** Subtraction *)

Lemma sub_diag (x : float) : is_finite x = true -> x - x = 0.
Proof.
  rewrite is_finite_spec. intros Hx.
  apply Prim2SF_inj. rewrite FloatAxioms.sub_spec.
  change (Prim2SF 0) with (S754_zero false).
  unfold SF64sub.
  destruct (Prim2SF x) as [[]|[]| |s m e]; try discriminate; try reflexivity.
  unfold SFsub. rewrite Z.sub_diag. reflexivity.
Qed.

(** The result of a rounding step is a zero, a number or an infinity:
    the mantissa stays non-negative through every shift. *)
Lemma shr_1_nonneg (mrs : shr_record) :
  (0 <= shr_m mrs)%Z -> (0 <= shr_m (shr_1 mrs))%Z.
Proof.
  destruct mrs as [m r s]; simpl.
  destruct m as [|[p|p|]|[p|p|]]; simpl; lia.
Qed.

Lemma iter_shr_1_nonneg (p : positive) (mrs : shr_record) :
  (0 <= shr_m mrs)%Z -> (0 <= shr_m (SpecFloat.iter_pos shr_1 p mrs))%Z.
Proof.
  revert mrs. induction p as [p IH|p IH|]; intros mrs H; simpl.
  - apply IH, IH, shr_1_nonneg, H.
  - apply IH, IH, H.
  - apply shr_1_nonneg, H.
Qed.

Lemma shr_fexp_nonneg (m e : Z) (l : location) :
  (0 <= m)%Z -> (0 <= shr_m (fst (shr_fexp prec emax m e l)))%Z.
Proof.
  intros H. unfold shr_fexp, shr.
  assert (H0 : (0 <= shr_m (shr_record_of_loc m l))%Z)
    by (destruct l as [|[]]; exact H).
  destruct (_ - e)%Z; simpl; auto using iter_shr_1_nonneg.
Qed.

Lemma round_nearest_even_nonneg (m : Z) (l : location) :
  (0 <= m)%Z -> (0 <= round_nearest_even m l)%Z.
Proof.
  intros H. destruct l as [|[]]; simpl; try destruct (Z.even m); lia.
Qed.

Lemma binary_round_aux_not_nan (sx : bool) (mx ex : Z) (lx : location) :
  (0 <= mx)%Z -> binary_round_aux prec emax sx mx ex lx <> S754_nan.
Proof.
  intros H. unfold binary_round_aux.
  pose proof (shr_fexp_nonneg mx ex lx H) as H1.
  destruct (shr_fexp prec emax mx ex lx) as [mrs' e']. simpl in H1.
  pose proof (round_nearest_even_nonneg _ (loc_of_shr_record mrs') H1) as H2.
  pose proof (shr_fexp_nonneg _ e' loc_Exact H2) as H3.
  destruct (shr_fexp prec emax _ e' loc_Exact) as [mrs'' e'']. simpl in H3.
  destruct (shr_m mrs''); [discriminate| |lia].
  destruct (_ <=? _)%Z; discriminate.
Qed.

Lemma binary_normalize_not_nan (m e : Z) (sz : bool) :
  binary_normalize prec emax m e sz <> S754_nan.
Proof.
  destruct m as [|p|p]; simpl; [discriminate| |];
    unfold binary_round; destruct (shl_align _ _ _) as [mz ez];
    apply binary_round_aux_not_nan; lia.
Qed.

Lemma sub_finite_not_nan (x y : float) :
  is_finite x = true -> is_finite y = true -> is_nan (x - y) = false.
Proof.
  rewrite !is_finite_spec, not_nan_spec, FloatAxioms.sub_spec. unfold SF64sub.
  destruct (Prim2SF x) as [[]|[]| |sx mx ex]; try discriminate;
    destruct (Prim2SF y) as [[]|[]| |sy my ey]; try discriminate;
    intros _ _; try (simpl; discriminate).
  apply binary_normalize_not_nan.
Qed.

(** Adding a finite number never produces NaN. *)
Lemma add_not_nan (x y : float) :
  is_nan x = false -> is_finite y = true -> is_nan (x + y)%float = false.
Proof.
  rewrite is_finite_spec, !not_nan_spec, FloatAxioms.add_spec.
  unfold SF64add.
  destruct (Prim2SF x) as [[]|[]| |sx mx ex]; try congruence;
    destruct (Prim2SF y) as [[]|[]| |sy my ey]; try discriminate;
    intros _ _; try (simpl; discriminate).
  apply binary_normalize_not_nan.
Qed.

(** *** Comparisons

    On numbers other than NaN, [<=?] is a total preorder and [<?] is its
    strict part ([0] and [-0] compare equal). *)

Definition SFle (a b : spec_float) : Prop :=
  SFcompare a b = Some Lt \/ SFcompare a b = Some Eq.

Lemma SFcompare_antisym (a b : spec_float) :
  SFcompare b a = option_map CompOpp (SFcompare a b).
Proof.
  destruct a as [[]|[]| |[] m1 e1], b as [[]|[]| |[] m2 e2]; simpl;
    try reflexivity;
    change (Pos.compare_cont Eq) with Pos.compare;
    rewrite (Z.compare_antisym e1 e2), (Pos.compare_antisym m1 m2);
    destruct (e1 ?= e2)%Z; simpl; try reflexivity;
    destruct (m1 ?= m2)%positive; reflexivity.
Qed.

Lemma SFle_trans (a b c : spec_float) : SFle a b -> SFle b c -> SFle a c.
Proof.
  unfold SFle.
  destruct a as [[]|[]| |[] m1 e1], b as [[]|[]| |[] m2 e2],
           c as [[]|[]| |[] m3 e3]; simpl;
    try (intuition congruence);
    change (Pos.compare_cont Eq) with Pos.compare;
    destruct (Z.compare_spec e1 e2), (Z.compare_spec e2 e3),
             (Z.compare_spec e1 e3); try lia; try (intuition congruence);
    subst;
    destruct (Pos.compare_spec m1 m2), (Pos.compare_spec m2 m3),
             (Pos.compare_spec m1 m3); simpl; try lia;
    intuition congruence.
Qed.

Lemma leb_SFle (x y : float) : (x <=? y) = true <-> SFle (Prim2SF x) (Prim2SF y).
Proof.
  rewrite FloatAxioms.leb_spec. unfold SFleb, SFle.
  destruct (SFcompare _ _) as [[]|]; intuition congruence.
Qed.

Lemma leb_refl (x : float) : is_nan x = false -> (x <=? x) = true.
Proof.
  rewrite not_nan_spec, leb_SFle. intros H. right. apply SFcompare_refl, H.
Qed.

Lemma leb_trans (x y z : float) :
  (x <=? y) = true -> (y <=? z) = true -> (x <=? z) = true.
Proof. rewrite !leb_SFle. apply SFle_trans. Qed.

(** Python's [a > b] on floats is [b <? a]; without NaN it is the negation
    of [a <=? b]. *)
Lemma ltb_negb_leb (x y : float) :
  is_nan x = false -> is_nan y = false -> (x <? y) = negb (y <=? x).
Proof.
  rewrite !not_nan_spec, FloatAxioms.ltb_spec, FloatAxioms.leb_spec. unfold SFltb, SFleb.
  rewrite (SFcompare_antisym (Prim2SF x) (Prim2SF y)).
  destruct (Prim2SF x) as [[]|[]| |[] m1 e1] eqn:Ex; try congruence;
    destruct (Prim2SF y) as [[]|[]| |[] m2 e2] eqn:Ey; try congruence;
    intros _ _; simpl; try reflexivity;
    destruct (e1 ?= e2)%Z; simpl; try reflexivity;
    destruct (Pos.compare_cont Eq m1 m2); reflexivity.
Qed.

Lemma ltb_leb (x y : float) : (x <? y) = true -> (x <=? y) = true.
Proof.
  rewrite FloatAxioms.ltb_spec, FloatAxioms.leb_spec. unfold SFltb, SFleb.
  destruct (SFcompare _ _) as [[]|]; congruence.
Qed.

Lemma ltb_not_nan (x y : float) :
  (x <? y) = true -> is_nan x = false /\ is_nan y = false.
Proof.
  rewrite FloatAxioms.ltb_spec, !not_nan_spec. unfold SFltb.
  destruct (Prim2SF x), (Prim2SF y); simpl; try discriminate;
    split; discriminate.
Qed.

Lemma leb_not_nan (x y : float) :
  (x <=? y) = true -> is_nan x = false /\ is_nan y = false.
Proof.
  rewrite FloatAxioms.leb_spec, !not_nan_spec. unfold SFleb.
  destruct (Prim2SF x), (Prim2SF y); simpl; try discriminate;
    split; discriminate.
Qed.

Lemma leb_total (x y : float) :
  is_nan x = false -> is_nan y = false ->
  (x <=? y) = true \/ (y <=? x) = true.
Proof.
  intros Hx Hy. destruct (y <=? x) eqn:E; [now right|left].
  apply ltb_leb. rewrite ltb_negb_leb, E by assumption. reflexivity.
Qed.

Lemma ltb_leb_trans (x y z : float) :
  (x <? y) = true -> (y <=? z) = true -> (x <? z) = true.
Proof.
  intros Hxy Hyz.
  destruct (ltb_not_nan _ _ Hxy) as [Hx Hy].
  destruct (leb_not_nan _ _ Hyz) as [_ Hz].
  rewrite ltb_negb_leb in * by assumption.
  destruct (z <=? x) eqn:E; [|reflexivity].
  rewrite (leb_trans _ _ _ Hyz E) in Hxy. discriminate.
Qed.

Lemma leb_ltb_trans (x y z : float) :
  (x <=? y) = true -> (y <? z) = true -> (x <? z) = true.
Proof.
  intros Hxy Hyz.
  destruct (leb_not_nan _ _ Hxy) as [Hx Hy].
  destruct (ltb_not_nan _ _ Hyz) as [_ Hz].
  rewrite ltb_negb_leb in * by assumption.
  destruct (z <=? x) eqn:E; [|reflexivity].
  rewrite (leb_trans _ _ _ E Hxy) in Hyz. discriminate.
Qed.

(** *** The infinities *)

(** Nothing but [+inf] fails to be below [+inf], and nothing but [-inf] to
    be above [-inf]. *)
Lemma not_ltb_infinity (x : float) :
  is_nan x = false -> (x <? infinity) = false -> x = infinity.
Proof.
  rewrite not_nan_spec, FloatAxioms.ltb_spec. intros Hx Hlt.
  apply Prim2SF_inj. change (Prim2SF infinity) with (S754_infinity false).
  destruct (Prim2SF x) as [[]|[]| |[] m e]; try discriminate; congruence.
Qed.

Lemma not_neg_infinity_ltb (x : float) :
  is_nan x = false -> (neg_infinity <? x) = false -> x = neg_infinity.
Proof.
  rewrite not_nan_spec, FloatAxioms.ltb_spec. intros Hx Hlt.
  apply Prim2SF_inj.
  change (Prim2SF neg_infinity) with (S754_infinity true) in *.
  destruct (Prim2SF x) as [[]|[]| |[] m e]; try discriminate; congruence.
Qed.

End F64.

(** ** Python exceptions and stateful methods *)

(** The exception classes that occur; every one derives from [Exception],
    and only [KeyError] is caught by [except KeyError]. *)
Inductive pyexn : Set :=
  | KeyError | IndexError | ValueError | TypeError
  | OverflowError | ZeroDivisionError | DecodeError.

Global Instance pyexn_eq_dec : EqDecision pyexn.
Proof. solve_decision. Defined.

(** A pure expression has a value or raises: [x ← e; k] evaluates [e] and
    stops at its exception. *)
Global Instance result_bind : MBind (sum pyexn) :=
  fun A B k r => match r with inl e => inl e | inr a => k a end.
Global Instance result_ret : MRet (sum pyexn) := fun A a => inr a.

(** A method on an object of state [S]: it returns or raises, and leaves
    the object as it was at that moment. *)
Definition Py (S A : Type) : Type := S -> (pyexn + A) * S.

Definition py_ret {S A} (a : A) : Py S A := fun s => (inr a, s).

Definition py_bind {S A B} (m : Py S A) (k : A -> Py S B) : Py S B :=
  fun s => match m s with
           | (inr a, s') => k a s'
           | (inl e, s') => (inl e, s')
           end.

Definition raise {S A} (e : pyexn) : Py S A := fun s => (inl e, s).

(** The value or exception of a pure expression. *)
Definition eval {S A} (r : pyexn + A) : Py S A := fun s => (r, s).

Definition read {S A} (f : S -> A) : Py S A := fun s => (inr (f s), s).

Definition update {S} (f : S -> S) : Py S unit := fun s => (inr tt, f s).

(** [try: body except ...: handler e] *)
Definition try_except {S A} (body : Py S A) (handler : pyexn -> Py S A)
  : Py S A :=
  fun s => match body s with
           | (inr a, s') => (inr a, s')
           | (inl e, s') => handler e s'
           end.

(** Run a method of a component [C] of [S] on the component in place. *)
Definition within {S C A} (proj : S -> C) (inj : C -> S -> S) (m : Py C A)
  : Py S A :=
  fun s => let '(r, c') := m (proj s) in (r, inj c' s).

Declare Scope py_scope.
Delimit Scope py_scope with py.
Notation "x <~ m ; k" := (py_bind m (fun x => k))
  (at level 100, m at next level, k at level 200, right associativity)
  : py_scope.
Notation "m ;; k" := (py_bind m (fun _ => k))
  (at level 100, k at level 200, right associativity) : py_scope.

(** The object after a method call, and what the call returned. *)
Definition state_of {S A} (r : (pyexn + A) * S) : S := snd r.
Definition result_of {S A} (r : (pyexn + A) * S) : pyexn + A := fst r.

(** ** numpy arrays of [float64] *)

Module np.

Abbreviation ndarray := (list float).

(** [np.empty(n)]: [n] slots of whatever the allocator left there
    ([uninit i] at slot [i]); a negative [n] is a [ValueError]. The
    allocation itself is taken to succeed: an [n] that the machine cannot
    allocate, which numpy refuses with [ValueError] or [MemoryError], is
    not modelled, so a statement that a buffer exists is about a capacity
    the machine can hold. *)
Definition empty (uninit : nat -> float) (n : Z) : pyexn + ndarray :=
  if n <? 0 then inl ValueError
  else inr (uninit <$> seq 0 (Z.to_nat n)).

(** A slice bound [i] clipped to an array of length [n]. *)
Definition clip (n i : Z) : Z :=
  if i <? 0 then Z.max 0 (i + n) else Z.min i n.

Definition bounds (a : ndarray) (lo hi : option Z) : nat * nat :=
  let n := Z.of_nat (length a) in
  let l := from_option (clip n) 0 lo in
  let h := from_option (clip n) n hi in
  (Z.to_nat l, Z.to_nat (h - l)).

(** [a[lo:hi]] *)
Definition slice (a : ndarray) (lo hi : option Z) : ndarray :=
  let '(l, k) := bounds a lo hi in take k (drop l a).

(** [a[i] = x] *)
Definition setitem (a : ndarray) (i : Z) (x : float) : pyexn + ndarray :=
  let n := Z.of_nat (length a) in
  if (0 <=? i) && (i <? n) then inr (<[Z.to_nat i := x]> a)
  else if (- n <=? i) && (i <? 0) then inr (<[Z.to_nat (i + n) := x]> a)
  else inl IndexError.

(** [a[lo:hi] = src]: the shapes must agree, or [src] has one element,
    which is then broadcast. *)
Definition setslice (a : ndarray) (lo hi : option Z) (src : ndarray)
  : pyexn + ndarray :=
  let '(l, k) := bounds a lo hi in
  if decide (length src = k) then inr (take l a ++ src ++ drop (l + k) a)
  else match src with
       | [x] => inr (take l a ++ replicate k x ++ drop (l + k) a)
       | _ => inl ValueError
       end.

(** *** Searching a sorted array *)

(** numpy's order on [float64]: the usual one, with NaN after everything. *)
Definition lt (a b : float) : bool :=
  (a <? b)%float || (is_nan b && negb (is_nan a)).

Inductive side : Set := left | right.

(** [np.minimum] and [np.maximum]: the second argument wins a tie (which
    shows in the sign of a zero only), and NaN propagates. *)
Definition minimum (a b : float) : float :=
  if (a <? b)%float || is_nan a then a else b.
Definition maximum (a b : float) : float :=
  if (b <? a)%float || is_nan a then a else b.

(** [np.min(a)] and [np.max(a)]; an empty array is a [ValueError]. *)
Definition min (a : list float) : pyexn + float :=
  match a with
  | [] => inl ValueError
  | x :: rest => inr (foldl minimum x rest)
  end.
Definition max (a : list float) : pyexn + float :=
  match a with
  | [] => inl ValueError
  | x :: rest => inr (foldl maximum x rest)
  end.

(** [np.searchsorted(a, v, side)] on a one-dimensional array: the binary
    search of numpy, which keeps the insertion point in
    [[min_idx, max_idx]] and halves the interval. [fuel] bounds the number of
    halvings. *)
Fixpoint binsearch (go_right : float -> bool) (a : list float)
    (fuel min_idx max_idx : nat) : nat :=
  match fuel with
  | O => min_idx
  | S fuel =>
    if (min_idx <? max_idx)%nat then
      let mid := (min_idx + (max_idx - min_idx) / 2)%nat in
      match a !! mid with
      | Some x =>
        if go_right x then binsearch go_right a fuel (S mid) max_idx
        else binsearch go_right a fuel min_idx mid
      | None => min_idx
      end
    else min_idx
  end.

Definition searchsorted (a : list float) (v : float) (s : side) : Z :=
  let go_right :=
    match s with
    | left => fun x => lt x v
    | right => fun x => negb (lt v x)
    end in
  Z.of_nat (binsearch go_right a (length a) 0 (length a)).

(** A time array in ascending order, without NaN. *)
Fixpoint ascending (a : list float) : bool :=
  match a with
  | [] => true
  | x :: rest =>
    negb (is_nan x) &&
    match rest with
    | [] => true
    | y :: _ => (x <=? y)%float
    end && ascending rest
  end.

Lemma ascending_not_nan (a : list float) (i : nat) (x : float) :
  ascending a = true -> a !! i = Some x -> is_nan x = false.
Proof.
  revert i. induction a as [|y rest IH]; intros i Ha Hi; [done|].
  simpl in Ha. apply andb_prop in Ha as [[Hy _]%andb_prop Hrest].
  destruct i as [|i]; simpl in Hi.
  - injection Hi as <-. by destruct (is_nan y).
  - by apply (IH i).
Qed.

Lemma ascending_le (a : list float) (i j : nat) (x y : float) :
  ascending a = true -> a !! i = Some x -> a !! j = Some y -> (i <= j)%nat ->
  (x <=? y)%float = true.
Proof.
  revert i j x. induction a as [|z rest IH]; intros i j x Ha Hi Hj Hij; [done|].
  pose proof Ha as Ha'.
  simpl in Ha. apply andb_prop in Ha as [[Hz Hadj]%andb_prop Hrest].
  destruct i as [|i].
  - simpl in Hi. injection Hi as <-.
    destruct j as [|j]; simpl in Hj.
    + injection Hj as <-. apply F64.leb_refl. by destruct (is_nan z).
    + destruct rest as [|z' rest']; [done|].
      apply (F64.leb_trans z z' y); [done|].
      apply (IH 0%nat j z'); [done|done|done|lia].
  - destruct j as [|j]; [lia|]. simpl in Hi, Hj.
    apply (IH i j); [done|done|done|lia].
Qed.

(** The binary search finds the boundary of any test that holds on a
    prefix of the array and fails on the rest. *)
Lemma binsearch_boundary (go_right : float -> bool) (a : list float)
    (fuel lo hi : nat) :
  (forall i j x y, a !! i = Some x -> a !! j = Some y -> (i <= j)%nat ->
                   go_right y = true -> go_right x = true) ->
  (lo <= hi <= length a)%nat -> (hi - lo <= fuel)%nat ->
  (forall j x, a !! j = Some x -> (j < lo)%nat -> go_right x = true) ->
  (forall j x, a !! j = Some x -> (hi <= j)%nat -> go_right x = false) ->
  let r := binsearch go_right a fuel lo hi in
  (lo <= r <= hi)%nat /\
  forall j x, a !! j = Some x -> ((j < r)%nat <-> go_right x = true).
Proof.
  intros Hmono. revert lo hi.
  induction fuel as [|fuel IH]; intros lo hi Hlh Hfuel Hlo Hhi;
    cbn [binsearch].
  - split; [lia|]. intros j x Hj. split; [by apply Hlo|].
    intros Hx. destruct (decide (j < lo)%nat); [done|].
    rewrite (Hhi j x) in Hx by (done || lia). done.
  - destruct (Nat.ltb_spec lo hi) as [Hlt|Hge].
    + set (mid := (lo + (hi - lo) / 2)%nat).
      assert (Hmid : (lo <= mid < hi)%nat).
      { unfold mid. pose proof (Nat.div_lt (hi - lo) 2). lia. }
      destruct (lookup_lt_is_Some_2 a mid) as [x Hx]; [lia|].
      rewrite Hx. destruct (go_right x) eqn:Ex.
      * destruct (IH (S mid) hi) as [Hr Hspec]; [lia|lia| |done|].
        { intros j y Hj Hjm. apply (Hmono j mid y x); [done|done|lia|done]. }
        split; [lia|done].
      * destruct (IH lo mid) as [Hr Hspec]; [lia|lia|done| |].
        { intros j y Hj Hjm. destruct (go_right y) eqn:Ey; [|done].
          rewrite (Hmono mid j x y) in Ex; [done|done|done|lia|done]. }
        split; [lia|done].
    + split; [lia|]. intros j x Hj. split; [by apply Hlo|].
      intros Hx. destruct (decide (j < lo)%nat); [done|].
      rewrite (Hhi j x) in Hx by (done || lia). done.
Qed.

Lemma lt_ordered (x y : float) :
  is_nan x = false -> is_nan y = false -> lt x y = (x <? y)%float.
Proof. intros Hx Hy. unfold lt. rewrite Hy. simpl. apply orb_false_r. Qed.

Lemma searchsorted_left (a : list float) (v : float) :
  ascending a = true -> is_nan v = false ->
  0 <= searchsorted a v left <= Z.of_nat (length a) /\
  forall j x, a !! j = Some x ->
    (Z.of_nat j < searchsorted a v left <-> (x <? v)%float = true).
Proof.
  intros Ha Hv. unfold searchsorted.
  destruct (binsearch_boundary (fun x => lt x v) a (length a) 0 (length a))
    as [Hr Hspec]; try lia.
  - intros i j x y Hi Hj Hij.
    rewrite !lt_ordered by eauto using ascending_not_nan.
    intros Hy. apply (F64.leb_ltb_trans x y v); [|done].
    by apply (ascending_le a i j).
  - intros j x Hj Hlen. apply lookup_lt_Some in Hj. lia.
  - split; [lia|]. intros j x Hj. rewrite <- (lt_ordered x v)
      by eauto using ascending_not_nan.
    rewrite <- (Hspec j x Hj). lia.
Qed.

Lemma searchsorted_right (a : list float) (v : float) :
  ascending a = true -> is_nan v = false ->
  0 <= searchsorted a v right <= Z.of_nat (length a) /\
  forall j x, a !! j = Some x ->
    (Z.of_nat j < searchsorted a v right <-> (x <=? v)%float = true).
Proof.
  intros Ha Hv. unfold searchsorted.
  assert (Hle : forall j x, a !! j = Some x ->
                            negb (lt v x) = (x <=? v)%float).
  { intros j x Hj. pose proof (ascending_not_nan a j x Ha Hj) as Hx.
    rewrite lt_ordered, F64.ltb_negb_leb by done. apply negb_involutive. }
  destruct (binsearch_boundary (fun x => negb (lt v x)) a (length a) 0 (length a))
    as [Hr Hspec]; try lia.
  - intros i j x y Hi Hj Hij. rewrite (Hle i x Hi), (Hle j y Hj).
    intros Hy. apply (F64.leb_trans x y v); [|done].
    by apply (ascending_le a i j).
  - intros j x Hj Hlen. apply lookup_lt_Some in Hj. lia.
  - split; [lia|]. intros j x Hj. rewrite <- (Hle j x Hj).
    rewrite <- (Hspec j x Hj). lia.
Qed.

(** *** Minimum, maximum and slices *)

(** [minimum] and [maximum] on numbers. *)
Lemma minimum_spec (x y : float) :
  is_nan x = false -> is_nan y = false ->
  let m := minimum x y in
  (m = x \/ m = y) /\ (m <=? x)%float = true /\ (m <=? y)%float = true.
Proof.
  intros Hx Hy. unfold minimum. rewrite Hx, orb_false_r.
  destruct (x <? y)%float eqn:E.
  - split; [by left|]. split; [by apply F64.leb_refl|by apply F64.ltb_leb].
  - split; [by right|]. split; [|by apply F64.leb_refl].
    rewrite F64.ltb_negb_leb in E by done. by destruct (y <=? x)%float.
Qed.

Lemma maximum_spec (x y : float) :
  is_nan x = false -> is_nan y = false ->
  let m := maximum x y in
  (m = x \/ m = y) /\ (x <=? m)%float = true /\ (y <=? m)%float = true.
Proof.
  intros Hx Hy. unfold maximum. rewrite Hx, orb_false_r.
  destruct (y <? x)%float eqn:E.
  - split; [by left|]. split; [by apply F64.leb_refl|by apply F64.ltb_leb].
  - split; [by right|]. split; [|by apply F64.leb_refl].
    rewrite F64.ltb_negb_leb in E by done. by destruct (x <=? y)%float.
Qed.

Lemma foldl_minimum_spec (x : float) (rest : list float) :
  is_nan x = false -> Forall (fun y => is_nan y = false) rest ->
  let m := foldl minimum x rest in
  m ∈ x :: rest /\ forall y, y ∈ x :: rest -> (m <=? y)%float = true.
Proof.
  revert x. induction rest as [|y0 rest IH]; intros x Hx Hrest; cbn [foldl].
  - split; [set_solver|]. intros y ->%list_elem_of_singleton.
    by apply F64.leb_refl.
  - apply Forall_cons in Hrest as [Hy0 Hrest].
    destruct (minimum_spec x y0 Hx Hy0) as (Hm & Hmx & Hmy).
    set (x' := minimum x y0) in *.
    assert (Hx' : is_nan x' = false) by (destruct Hm as [-> | ->]; done).
    destruct (IH x' Hx' Hrest) as [Hin Hle]. split.
    + apply elem_of_cons in Hin as [Hin|Hin]; [|set_solver].
      rewrite Hin. destruct Hm as [-> | ->]; set_solver.
    + assert (Hmx' : (foldl minimum x' rest <=? x')%float = true)
        by (apply Hle; set_solver).
      intros y [->|[->|Hy]%elem_of_cons]%elem_of_cons.
      * by apply (F64.leb_trans _ x').
      * by apply (F64.leb_trans _ x').
      * apply Hle. set_solver.
Qed.

Lemma foldl_maximum_spec (x : float) (rest : list float) :
  is_nan x = false -> Forall (fun y => is_nan y = false) rest ->
  let m := foldl maximum x rest in
  m ∈ x :: rest /\ forall y, y ∈ x :: rest -> (y <=? m)%float = true.
Proof.
  revert x. induction rest as [|y0 rest IH]; intros x Hx Hrest; cbn [foldl].
  - split; [set_solver|]. intros y ->%list_elem_of_singleton.
    by apply F64.leb_refl.
  - apply Forall_cons in Hrest as [Hy0 Hrest].
    destruct (maximum_spec x y0 Hx Hy0) as (Hm & Hmx & Hmy).
    set (x' := maximum x y0) in *.
    assert (Hx' : is_nan x' = false) by (destruct Hm as [-> | ->]; done).
    destruct (IH x' Hx' Hrest) as [Hin Hle]. split.
    + apply elem_of_cons in Hin as [Hin|Hin]; [|set_solver].
      rewrite Hin. destruct Hm as [-> | ->]; set_solver.
    + assert (Hmx' : (x' <=? foldl maximum x' rest)%float = true)
        by (apply Hle; set_solver).
      intros y [->|[->|Hy]%elem_of_cons]%elem_of_cons.
      * by apply (F64.leb_trans _ x').
      * by apply (F64.leb_trans _ x').
      * apply Hle. set_solver.
Qed.

(** The search stays inside the interval it is given, sorted array or
    not. *)
Lemma binsearch_range (go_right : float -> bool) (a : list float)
    (fuel lo hi : nat) :
  (lo <= hi)%nat ->
  (lo <= binsearch go_right a fuel lo hi <= hi)%nat.
Proof.
  revert lo hi. induction fuel as [|fuel IH]; intros lo hi Hlh;
    cbn [binsearch]; [lia|].
  destruct (Nat.ltb_spec lo hi) as [Hlt|Hge]; [|lia].
  set (mid := (lo + (hi - lo) / 2)%nat).
  assert (Hmid : (lo <= mid < hi)%nat).
  { unfold mid. pose proof (Nat.div_lt (hi - lo) 2). lia. }
  destruct (a !! mid) as [x|]; [|lia].
  destruct (go_right x).
  - pose proof (IH (S mid) hi). lia.
  - pose proof (IH lo mid). lia.
Qed.

Lemma searchsorted_range (a : list float) (v : float) (s : side) :
  0 <= searchsorted a v s <= Z.of_nat (length a).
Proof.
  unfold searchsorted.
  pose proof (binsearch_range
    (match s with
     | left => fun x => lt x v
     | right => fun x => negb (lt v x)
     end) a (length a) 0 (length a)). lia.
Qed.

Lemma slice_between (a : list float) (lo hi : Z) :
  0 <= lo <= Z.of_nat (length a) -> 0 <= hi <= Z.of_nat (length a) ->
  slice a (Some lo) (Some hi)
  = take (Z.to_nat (hi - lo)) (drop (Z.to_nat lo) a).
Proof.
  intros Hlo Hhi. unfold slice, bounds, clip. simpl.
  destruct (Z.ltb_spec lo 0); [lia|]. destruct (Z.ltb_spec hi 0); [lia|].
  by rewrite !Z.min_l by lia.
Qed.

End np.

(** Python's [a % b] on integers. *)
Definition py_mod (a b : Z) : pyexn + Z :=
  if b =? 0 then inl ZeroDivisionError else inr (a mod b).

(** ** Lists *)

(** The last [n] elements of a list. *)
Definition last_n {A} (n : nat) (l : list A) : list A :=
  drop (length l - n) l.

Lemma last_n_all {A} (n : nat) (l : list A) :
  (length l <= n)%nat -> last_n n l = l.
Proof. intros H. unfold last_n. replace (length l - n)%nat with 0%nat by lia. done. Qed.

Lemma last_n_length {A} (n : nat) (l : list A) :
  length (last_n n l) = (length l `min` n)%nat.
Proof. unfold last_n. rewrite length_drop. lia. Qed.

Lemma last_n_snoc {A} (n : nat) (l : list A) (x : A) :
  (1 <= n)%nat -> last_n n (last_n n l ++ [x]) = last_n n (l ++ [x]).
Proof.
  intros Hn. unfold last_n at 1 3.
  rewrite !length_app, last_n_length. simpl.
  unfold last_n.
  destruct (decide (length l <= n)%nat) as [Hl|Hl].
  - replace (length l - n)%nat with 0%nat by lia. simpl.
    f_equal. lia.
  - rewrite (drop_app_le l [x]) by lia.
    rewrite drop_app_le by (rewrite length_drop; lia).
    rewrite drop_drop. do 2 f_equal. lia.
Qed.

Lemma last_n_fmap {A B} (f : A -> B) (n : nat) (l : list A) :
  f <$> last_n n l = last_n n (f <$> l).
Proof. unfold last_n. by rewrite fmap_drop, length_fmap. Qed.

(** The elements of a list that pass a test which holds exactly on the
    positions from [lo] up to [hi]. *)
Lemma filter_interval {A} (P : A -> Prop) `{forall x, Decision (P x)}
    (l : list A) (lo hi : nat) :
  (forall j x, l !! j = Some x -> P x <-> (lo <= j < hi)%nat) ->
  filter P l = take (hi - lo) (drop lo l).
Proof.
  revert lo hi. induction l as [|x l IH]; intros lo hi HP.
  - by rewrite drop_nil, take_nil.
  - rewrite filter_cons.
    pose proof (HP 0%nat x eq_refl) as H0.
    assert (Htail : forall lo' hi',
      (forall j, (lo <= S j < hi)%nat <-> (lo' <= j < hi')%nat) ->
      filter P l = take (hi' - lo') (drop lo' l)).
    { intros lo' hi' Hshift. apply IH. intros j y Hj.
      rewrite <- Hshift. by apply (HP (S j) y). }
    destruct (decide (P x)) as [Hx|Hx].
    + apply H0 in Hx. assert (lo = 0)%nat as -> by lia.
      rewrite drop_0. destruct hi as [|hi]; [lia|].
      cbn [take Nat.sub]. f_equal.
      rewrite (Htail 0%nat hi) by (intros; lia).
      by rewrite Nat.sub_0_r, drop_0.
    + destruct lo as [|lo].
      * assert (hi = 0)%nat as -> by (destruct hi; [done|]; exfalso; apply Hx, H0; lia).
        rewrite (Htail 0%nat 0%nat) by (intros; lia). done.
      * cbn [drop].
        rewrite (Htail lo (hi - 1)%nat) by (intros; lia).
        f_equal. lia.
Qed.

(** ** Python builtins on numbers *)

(** [float(n)] for a Python integer: the nearest binary64 number, or
    [OverflowError] beyond the range. *)
Definition float_of_int (n : Z) : pyexn + float :=
  match binary_normalize prec emax n 0 false with
  | S754_infinity _ => inl OverflowError
  | s => inr (SF2Prim s)
  end.

(** [max(a, b)] and [min(a, b)] of Python: [a] unless [b] beats it. *)
Definition py_max (a b : float) : float := if (a <? b)%float then b else a.
Definition py_min (a b : float) : float := if (b <? a)%float then b else a.

Lemma py_max_zero_not_nan (x : float) : is_nan (py_max 0 x) = false.
Proof.
  unfold py_max. destruct (0 <? x)%float eqn:E; [|reflexivity].
  by apply F64.ltb_not_nan in E as [_ ?].
Qed.

(** [sorted(names)] on strings. Python orders strings by code point, which
    on UTF-8 bytes is the order of the bytes. The keys of a dictionary are
    distinct, so the result does not depend on the sorting algorithm. *)
Definition sorted (l : list string) : list string := merge_sort String.le l.

(** ** [live_data_store.CircularBuffer] *)

Module CircularBuffer.

Record t : Type := Build {
  _t : np.ndarray;
  _val : np.ndarray;
  _capacity : Z;
  _head : Z;   (* next write position *)
  _count : Z   (* number of valid elements *)
}.

Definition set_t (a : np.ndarray) (self : t) : t :=
  Build a (_val self) (_capacity self) (_head self) (_count self).
Definition set_val (a : np.ndarray) (self : t) : t :=
  Build (_t self) a (_capacity self) (_head self) (_count self).
Definition set_head (h : Z) (self : t) : t :=
  Build (_t self) (_val self) (_capacity self) h (_count self).
Definition set_count (c : Z) (self : t) : t :=
  Build (_t self) (_val self) (_capacity self) (_head self) c.

Section WithMemory.

Variable uninit : nat -> float.

Local Open Scope py_scope.

(** [__init__] *)
Definition init (capacity : Z) : pyexn + t :=
  ts ← np.empty uninit capacity;
  vals ← np.empty uninit capacity;
  inr (Build ts vals capacity 0 0).

Definition append (time val : float) : Py t unit :=
  self <~ read id;
  ts <~ eval (np.setitem (_t self) (_head self) time);
  update (set_t ts);;
  vals <~ eval (np.setitem (_val self) (_head self) val);
  update (set_val vals);;
  h <~ eval (py_mod (_head self + 1) (_capacity self));
  update (set_head h);;
  if _count self <? _capacity self
  then update (set_count (_count self + 1))
  else py_ret tt.

Definition get_arrays (self : t) : pyexn + (np.ndarray * np.ndarray) :=
  if _count self =? 0 then inr ([], [])
  else if _count self <? _capacity self then
    inr (np.slice (_t self) None (Some (_count self)),
         np.slice (_val self) None (Some (_count self)))
  else
    (* Buffer is full and has wrapped. Oldest sample is at _head. *)
    let tail_len := _capacity self - _head self in
    t_out ← np.empty uninit (_capacity self);
    val_out ← np.empty uninit (_capacity self);
    t_out ← np.setslice t_out None (Some tail_len)
               (np.slice (_t self) (Some (_head self)) None);
    t_out ← np.setslice t_out (Some tail_len) None
               (np.slice (_t self) None (Some (_head self)));
    val_out ← np.setslice val_out None (Some tail_len)
               (np.slice (_val self) (Some (_head self)) None);
    val_out ← np.setslice val_out (Some tail_len) None
               (np.slice (_val self) None (Some (_head self)));
    inr (t_out, val_out).

(** A buffer after a run of appends; the first exception ends the run. *)
Fixpoint appends (samples : list (float * float)) : Py t unit :=
  match samples with
  | [] => py_ret tt
  | (time, val) :: rest => append time val;; appends rest
  end.

(** *** Reachable buffers *)

Record wf (self : t) : Prop := {
  wf_capacity : 1 <= _capacity self;
  wf_t : Z.of_nat (length (_t self)) = _capacity self;
  wf_val : Z.of_nat (length (_val self)) = _capacity self;
  wf_head : 0 <= _head self < _capacity self;
  wf_count : 0 <= _count self <= _capacity self;
  wf_filling : _count self < _capacity self -> _head self = _count self
}.

(** The valid slots of array [a], oldest first. *)
Definition ring (self : t) (a : np.ndarray) : np.ndarray :=
  if _count self <? _capacity self then take (Z.to_nat (_count self)) a
  else drop (Z.to_nat (_head self)) a ++ take (Z.to_nat (_head self)) a.

Lemma empty_ok (n : Z) :
  0 <= n -> exists a, np.empty uninit n = inr a /\ length a = Z.to_nat n.
Proof.
  intros Hn. unfold np.empty.
  destruct (Z.ltb_spec n 0); [lia|].
  eexists; split; [done|]. by rewrite length_fmap, length_seq.
Qed.

Lemma slice_to (a : np.ndarray) (k : Z) :
  0 <= k <= Z.of_nat (length a) -> np.slice a None (Some k) = take (Z.to_nat k) a.
Proof.
  intros Hk. unfold np.slice, np.bounds, np.clip. simpl.
  destruct (Z.ltb_spec k 0); [lia|].
  rewrite Z.min_l, Z.sub_0_r by lia. done.
Qed.

Lemma slice_from (a : np.ndarray) (k : Z) :
  0 <= k <= Z.of_nat (length a) -> np.slice a (Some k) None = drop (Z.to_nat k) a.
Proof.
  intros Hk. unfold np.slice, np.bounds, np.clip. simpl.
  destruct (Z.ltb_spec k 0); [lia|].
  rewrite Z.min_l by lia.
  apply take_ge. rewrite length_drop. lia.
Qed.

Lemma setslice_to (a src : np.ndarray) (k : Z) :
  0 <= k <= Z.of_nat (length a) -> length src = Z.to_nat k ->
  np.setslice a None (Some k) src = inr (src ++ drop (Z.to_nat k) a).
Proof.
  intros Hk Hs. unfold np.setslice, np.bounds, np.clip. simpl.
  destruct (Z.ltb_spec k 0); [lia|].
  rewrite Z.min_l, Z.sub_0_r by lia.
  rewrite decide_True by done. done.
Qed.

Lemma setslice_from (a src : np.ndarray) (k : Z) :
  0 <= k <= Z.of_nat (length a) -> (length src + Z.to_nat k = length a)%nat ->
  np.setslice a (Some k) None src = inr (take (Z.to_nat k) a ++ src).
Proof.
  intros Hk Hs. unfold np.setslice, np.bounds, np.clip. simpl.
  destruct (Z.ltb_spec k 0); [lia|].
  rewrite Z.min_l by lia.
  rewrite decide_True by lia.
  rewrite drop_ge, app_nil_r by lia. done.
Qed.

Lemma get_arrays_ring (self : t) :
  wf self ->
  get_arrays self = inr (ring self (_t self), ring self (_val self)).
Proof.
  intros [Hc Ht Hv Hh Hn Hf]. unfold get_arrays, ring.
  destruct (Z.eqb_spec (_count self) 0) as [H0|H0].
  - destruct (Z.ltb_spec (_count self) (_capacity self)); [|lia].
    rewrite H0. done.
  - destruct (Z.ltb_spec (_count self) (_capacity self)).
    + rewrite !slice_to by lia. done.
    + destruct (empty_ok (_capacity self)) as (out & -> & Hout); [lia|].
      simpl.
      rewrite !slice_from, !slice_to by lia.
      do 2 (rewrite setslice_to by (rewrite ?length_drop; lia); simpl;
            rewrite setslice_from
              by (rewrite ?length_app, ?length_drop, ?length_take; lia);
            simpl;
            rewrite take_app_length' by (rewrite length_drop; lia)).
      done.
Qed.

(** The buffer an [append] leaves when nothing is raised. *)
Definition appended (time val : float) (self : t) : t :=
  Build (<[Z.to_nat (_head self) := time]> (_t self))
        (<[Z.to_nat (_head self) := val]> (_val self))
        (_capacity self)
        ((_head self + 1) mod _capacity self)
        (if _count self <? _capacity self then _count self + 1
         else _count self).

Lemma append_wf (self : t) (time val : float) :
  wf self -> append time val self = (inr tt, appended time val self).
Proof.
  intros [Hc Ht Hv Hh Hn Hf].
  unfold append, py_bind, read, eval, update, np.setitem, py_mod; simpl.
  rewrite Ht, Hv.
  destruct (Z.leb_spec 0 (_head self)); [|lia].
  destruct (Z.ltb_spec (_head self) (_capacity self)); [|lia].
  destruct (Z.eqb_spec (_capacity self) 0); [lia|]. simpl.
  unfold appended.
  destruct (_count self <? _capacity self); reflexivity.
Qed.

Lemma appended_wf (self : t) (time val : float) :
  wf self -> wf (appended time val self).
Proof.
  intros [Hc Ht Hv Hh Hn Hf].
  assert (Hm : 0 <= (_head self + 1) mod _capacity self < _capacity self)
    by (apply Z.mod_pos_bound; lia).
  split; unfold appended; cbn [_t _val _capacity _head _count];
    rewrite ?length_insert; try done.
  - destruct (Z.ltb_spec (_count self) (_capacity self)); lia.
  - destruct (Z.ltb_spec (_count self) (_capacity self)); [|lia].
    intros Hlt. rewrite Z.mod_small by lia. lia.
Qed.

Lemma ring_appended (self : t) (time val x : float) (a : np.ndarray) :
  wf self -> Z.of_nat (length a) = _capacity self ->
  ring (appended time val self) (<[Z.to_nat (_head self) := x]> a)
  = last_n (Z.to_nat (_capacity self)) (ring self a ++ [x]).
Proof.
  intros [Hc Ht Hv Hh Hn Hf] Ha.
  unfold ring, appended; cbn [_t _val _capacity _head _count].
  assert (Hi : (Z.to_nat (_head self) < length a)%nat) by lia.
  rewrite (insert_take_drop a _ x Hi).
  destruct (Z.ltb_spec (_count self) (_capacity self)) as [Hlt|Hfull].
  - (* still filling: the head is the count *)
    rewrite Hf by done.
    rewrite last_n_all by (rewrite length_app, length_take; simpl; lia).
    destruct (Z.ltb_spec (_count self + 1) (_capacity self)).
    + rewrite take_app_ge by (rewrite length_take; lia).
      rewrite length_take.
      replace (Z.to_nat (_count self + 1) - _)%nat with 1%nat by lia.
      done.
    + replace (_count self + 1) with (_capacity self) by lia.
      rewrite Z_mod_same_full. change (Z.to_nat 0) with 0%nat.
      rewrite drop_0, take_0, app_nil_r.
      rewrite (drop_ge a) by lia. done.
  - (* full: the oldest slot is overwritten *)
    unfold last_n. rewrite !length_app, length_drop, length_take. simpl.
    replace (_ - Z.to_nat (_capacity self))%nat with 1%nat by lia.
    destruct (Z.ltb_spec (_count self) (_capacity self)); [lia|].
    destruct (decide (_head self + 1 = _capacity self)) as [He|He].
    + rewrite He, Z_mod_same_full. change (Z.to_nat 0) with 0%nat.
      rewrite drop_0, take_0, app_nil_r.
      rewrite (drop_ge a (S _)) by lia. simpl.
      destruct (drop _ a) as [|y ys] eqn:Ed.
      { apply (f_equal length) in Ed. rewrite length_drop in Ed.
        simpl in Ed. lia. }
      assert (length (y :: ys) = 1%nat) as Hl
          by (rewrite <- Ed, length_drop; lia).
      destruct ys; [|simpl in Hl; lia]. done.
    + rewrite Z.mod_small by lia.
      replace (Z.to_nat (_head self + 1)) with (S (Z.to_nat (_head self)))
        by lia.
      rewrite drop_app_ge by (rewrite length_take; lia).
      rewrite length_take.
      replace (S _ - _)%nat with 1%nat by lia. simpl.
      rewrite take_app_ge by (rewrite length_take; lia).
      rewrite length_take.
      replace (S _ - _)%nat with 1%nat by lia. simpl.
      destruct (lookup_lt_is_Some_2 a _ Hi) as [y Hy].
      rewrite (drop_S a y _ Hy). simpl.
      rewrite drop_0, take_0, <- app_assoc. done.
Qed.

(** A buffer that holds the last [capacity] samples of a history. *)
Definition holds (self : t) (l : list (float * float)) : Prop :=
  wf self /\
  _count self = Z.min (Z.of_nat (length l)) (_capacity self) /\
  ring self (_t self) = last_n (Z.to_nat (_capacity self)) (l.*1) /\
  ring self (_val self) = last_n (Z.to_nat (_capacity self)) (l.*2).

Lemma init_holds (capacity : Z) :
  1 <= capacity ->
  exists self, init capacity = inr self /\ holds self [] /\
  _capacity self = capacity.
Proof.
  intros Hc. unfold init.
  destruct (empty_ok capacity) as (a & -> & Ha); [lia|]. simpl.
  eexists; split; [done|]. split; [|done].
  unfold holds, ring; simpl.
  destruct (Z.ltb_spec 0 capacity); [|lia].
  repeat split; simpl; try lia.
Qed.

Lemma append_holds (self : t) (l : list (float * float)) (time val : float) :
  holds self l ->
  append time val self = (inr tt, appended time val self) /\
  holds (appended time val self) (l ++ [(time, val)]).
Proof.
  intros (Hwf & Hn & Ht & Hv). split; [by apply append_wf|].
  split; [by apply appended_wf|].
  pose proof Hwf as [Hc Hlt Hlv Hh Hcnt Hf].
  split; [|split].
  - unfold appended; cbn [_capacity _count].
    rewrite length_app; simpl.
    destruct (Z.ltb_spec (_count self) (_capacity self)); lia.
  - unfold appended at 2; cbn [_t].
    rewrite ring_appended, Ht, fmap_app by done. simpl.
    apply last_n_snoc. lia.
  - unfold appended at 2; cbn [_val].
    rewrite ring_appended, Hv, fmap_app by done. simpl.
    apply last_n_snoc. lia.
Qed.

Lemma appends_holds (samples l : list (float * float)) (self : t) :
  holds self l ->
  exists self', appends samples self = (inr tt, self') /\
  holds self' (l ++ samples) /\
  _capacity self' = _capacity self.
Proof.
  revert l self. induction samples as [|[time val] rest IH]; intros l self H.
  - exists self. rewrite app_nil_r. done.
  - destruct (append_holds self l time val H) as [Hr H'].
    destruct (IH _ _ H') as (self' & Hrun & Hh & Hc).
    exists self'. simpl. unfold py_bind. rewrite Hr, Hrun.
    rewrite <- app_assoc in Hh. done.
Qed.

(** *** Snapshot of a wrapped buffer *)

(** C1. A buffer of capacity [c >= 1] that received [N > c] samples
    returns from [get_arrays] exactly the last [c] of them, times and
    values, in the order they were appended. *)
Theorem get_arrays_last_capacity
    (capacity : Z) (samples : list (float * float)) :
  1 <= capacity -> capacity < Z.of_nat (length samples) ->
  exists self self',
    init capacity = inr self /\
    appends samples self = (inr tt, self') /\
    get_arrays self' =
      inr ((last_n (Z.to_nat capacity) samples).*1,
           (last_n (Z.to_nat capacity) samples).*2) /\
    length (last_n (Z.to_nat capacity) samples) = Z.to_nat capacity.
Proof.
  intros Hc HN.
  destruct (init_holds capacity Hc) as (self & Hinit & Hself & Hcap).
  destruct (appends_holds samples [] self Hself)
    as (self' & Hrun & (Hwf & _ & Ht & Hv) & Hcap').
  exists self, self'. repeat split; try done.
  - rewrite (get_arrays_ring self' Hwf), Ht, Hv, Hcap', Hcap.
    rewrite !last_n_fmap. done.
  - rewrite last_n_length. lia.
Qed.

(** *** Capacity and failures *)

(** C8, as the code has it. [__init__] checks nothing itself: a negative
    capacity is refused by [np.empty], capacity 0 builds a buffer. Every
    append to a buffer of capacity 0 raises [IndexError] and leaves it as it
    was; a buffer of capacity at least 1, once [__init__] has built it,
    takes any run of appends without raising. *)
Theorem init_and_append_failures :
  (forall capacity, capacity < 0 -> init capacity = inl ValueError) /\
  (exists self,
     init 0 = inr self /\
     forall time val, append time val self = (inl IndexError, self)) /\
  (forall capacity self, 1 <= capacity ->
     init capacity = inr self ->
     forall samples, exists self', appends samples self = (inr tt, self')).
Proof.
  split; [|split].
  - intros capacity Hc. unfold init, np.empty.
    destruct (Z.ltb_spec capacity 0); [done|lia].
  - eexists. split; [reflexivity|]. intros time val. reflexivity.
  - intros capacity self Hc Hbuilt.
    destruct (init_holds capacity Hc) as (self0 & Hinit & Hself & _).
    rewrite Hbuilt in Hinit. injection Hinit as <-. intros samples.
    destruct (appends_holds samples [] self Hself) as (self' & Hrun & _).
    by exists self'.
Qed.

End WithMemory.

(** The scenario of the specification: capacity 5, six samples. *)
Definition six_samples : list (float * float) :=
  [(0, 1); (1, 2); (2, 3); (3, 4); (4, 5); (5, 6)]%float.

Definition nan_memory : nat -> float := fun _ => nan.

Example six_samples_snapshot :
  (self ← init nan_memory 5;
   get_arrays nan_memory (state_of (appends six_samples self)))
  = inr ([1; 2; 3; 4; 5]%float, [2; 3; 4; 5; 6]%float).
Proof. vm_compute. reflexivity. Qed.

Lemma get_arrays_last_capacity_witness :
  exists self self',
    init nan_memory 5 = inr self /\
    appends six_samples self = (inr tt, self') /\
    get_arrays nan_memory self' =
      inr ([1; 2; 3; 4; 5]%float, [2; 3; 4; 5; 6]%float).
Proof.
  destruct (get_arrays_last_capacity nan_memory 5 six_samples)
    as (self & self' & Hi & Hr & Hg & _); [lia | simpl; lia |].
  exists self, self'. auto.
Defined.

(** C8 as the specification words it fails: capacity 0 is accepted by the
    constructor, and the buffer it builds fails on its first append. *)
Lemma init_zero_counterexample :
  init nan_memory 0 = inr (Build [] [] 0 0 0) /\
  append 0%float 1%float (Build [] [] 0 0 0)
  = (inl IndexError, Build [] [] 0 0 0).
Proof. split; reflexivity. Qed.

Lemma init_and_append_failures_witness :
  init nan_memory (-1) = inl ValueError /\
  init nan_memory 3 = inr (Build [nan; nan; nan] [nan; nan; nan] 3 0 0) /\
  exists self',
    appends six_samples (Build [nan; nan; nan] [nan; nan; nan] 3 0 0)
    = (inr tt, self').
Proof.
  destruct (init_and_append_failures nan_memory) as (Hneg & _ & Hpos).
  split; [apply Hneg; lia|]. split; [reflexivity|].
  apply (Hpos 3); [lia | reflexivity].
Defined.

(** *** More on snapshots *)

Section Snapshots.

Variable uninit : nat -> float.

(** The snapshot of a new buffer of the given capacity after a run of
    appends. *)
Definition snapshot_after (capacity : Z) (samples : list (float * float))
  : pyexn + (np.ndarray * np.ndarray) :=
  self ← init uninit capacity;
  get_arrays uninit (state_of (appends samples self)).

Lemma snapshot_after_last_n (capacity : Z) (samples : list (float * float)) :
  1 <= capacity ->
  snapshot_after capacity samples
  = inr ((last_n (Z.to_nat capacity) samples).*1,
         (last_n (Z.to_nat capacity) samples).*2).
Proof.
  intros Hc. unfold snapshot_after.
  destruct (init_holds uninit capacity Hc) as (self & -> & Hself & Hcap).
  unfold mbind, result_bind.
  destruct (appends_holds samples [] self Hself)
    as (self' & -> & (Hwf & _ & Ht & Hv) & Hcap').
  unfold state_of. simpl.
  rewrite (get_arrays_ring uninit self' Hwf), Ht, Hv, Hcap', Hcap.
  by rewrite !last_n_fmap.
Qed.

(** A buffer that is not yet full returns everything it received, in
    order; an empty buffer returns two empty arrays. *)
Theorem get_arrays_before_wrap (capacity : Z) (samples : list (float * float)) :
  1 <= capacity -> Z.of_nat (length samples) <= capacity ->
  snapshot_after capacity samples = inr (samples.*1, samples.*2).
Proof.
  intros Hc Hn. rewrite snapshot_after_last_n by done.
  rewrite last_n_all by lia. done.
Qed.

(** After [N] appends the write position is [N mod capacity] and the
    number of valid slots is [min N capacity]; both arrays keep the length
    [capacity]. *)
Theorem appends_head_and_count (capacity : Z) (samples : list (float * float)) :
  1 <= capacity ->
  exists self self',
    init uninit capacity = inr self /\
    appends samples self = (inr tt, self') /\
    _head self' = Z.of_nat (length samples) mod capacity /\
    _count self' = Z.min (Z.of_nat (length samples)) capacity /\
    _capacity self' = capacity /\
    Z.of_nat (length (_t self')) = capacity /\
    Z.of_nat (length (_val self')) = capacity.
Proof.
  intros Hc.
  destruct (init_holds uninit capacity Hc) as (self & Hinit & Hself & Hcap).
  assert (Hhead0 : _head self = Z.of_nat (length (@nil (float * float)))
                                mod _capacity self).
  { unfold init in Hinit.
    destruct (np.empty uninit capacity) as [|a]; [done|]. simpl in Hinit.
    injection Hinit as <-. simpl. by rewrite Z.mod_0_l by lia. }
  assert (Hgen : forall samples l self,
    holds self l -> _head self = Z.of_nat (length l) mod _capacity self ->
    exists self',
      appends samples self = (inr tt, self') /\
      holds self' (l ++ samples) /\
      _capacity self' = _capacity self /\
      _head self' = Z.of_nat (length (l ++ samples)) mod _capacity self').
  { clear. intros samples.
    induction samples as [|[time val] rest IH]; intros l self Hh Hhead.
    - exists self. by rewrite app_nil_r.
    - destruct (append_holds self l time val Hh) as [Hr Hh'].
      destruct (IH (l ++ [(time, val)]) (appended time val self) Hh')
        as (self' & Hrun & Hh'' & Hcap & Hhd).
      { unfold appended; cbn [_head _capacity]. rewrite Hhead.
        rewrite length_app. simpl.
        rewrite Z.add_mod_idemp_l by (destruct Hh as [[]]; lia).
        f_equal. lia. }
      exists self'. simpl. unfold py_bind. rewrite Hr, Hrun.
      rewrite <- app_assoc in Hh'', Hhd. done. }
  destruct (Hgen samples [] self Hself Hhead0)
    as (self' & Hrun & (Hwf & Hcount & _) & Hcap' & Hhead).
  exists self, self'. simpl in *.
  destruct Hwf as [_ Ht Hv _ _ _].
  rewrite Hcap', Hcap in *. done.
Qed.

Lemma ascending_drop (n : nat) (a : list float) :
  np.ascending a = true -> np.ascending (drop n a) = true.
Proof.
  revert a. induction n as [|n IH]; intros a Ha; [by rewrite drop_0|].
  destruct a as [|x rest]; [done|]. simpl drop. apply IH.
  simpl in Ha. by apply andb_prop in Ha as [_ ?].
Qed.

(** The time-ordered view: when the samples arrive in ascending time, the
    snapshot's time array is ascending, also after the buffer wrapped. *)
Theorem snapshot_times_ascending
    (capacity : Z) (samples : list (float * float)) :
  1 <= capacity -> np.ascending samples.*1 = true ->
  exists times values,
    snapshot_after capacity samples = inr (times, values) /\
    np.ascending times = true /\
    length times = length values.
Proof.
  intros Hc Ha. eexists _, _.
  split; [by apply snapshot_after_last_n|].
  split; [|by rewrite !length_fmap].
  rewrite last_n_fmap. by apply ascending_drop.
Qed.

End Snapshots.

(** What [np.empty] left in the arrays never shows in a snapshot. *)
Theorem snapshot_ignores_uninitialised
    (uninit1 uninit2 : nat -> float) (capacity : Z)
    (samples : list (float * float)) :
  1 <= capacity ->
  snapshot_after uninit1 capacity samples
  = snapshot_after uninit2 capacity samples.
Proof. intros Hc. by rewrite !snapshot_after_last_n. Qed.

Lemma get_arrays_before_wrap_witness :
  snapshot_after nan_memory 5 (take 3 six_samples)
  = inr ([0; 1; 2]%float, [1; 2; 3]%float) /\
  snapshot_after nan_memory 5 [] = inr ([], []).
Proof.
  split.
  - apply (get_arrays_before_wrap nan_memory 5 (take 3 six_samples));
      simpl; lia.
  - apply (get_arrays_before_wrap nan_memory 5 []); simpl; lia.
Defined.

Lemma appends_head_and_count_witness :
  exists self',
    appends six_samples
      (Build (replicate 5 nan) (replicate 5 nan) 5 0 0) = (inr tt, self') /\
    _head self' = 1 /\ _count self' = 5.
Proof.
  destruct (appends_head_and_count nan_memory 5 six_samples)
    as (self & self' & Hinit & Hrun & Hh & Hc & _); [lia|].
  injection Hinit as <-. exists self'. auto.
Defined.

Lemma snapshot_times_ascending_witness :
  exists times values,
    snapshot_after nan_memory 5 six_samples = inr (times, values) /\
    np.ascending times = true.
Proof.
  destruct (snapshot_times_ascending nan_memory 5 six_samples)
    as (times & values & Hs & Ha & _); [lia | reflexivity |].
  exists times, values. split; [exact Hs | exact Ha].
Defined.

Lemma snapshot_ignores_uninitialised_witness :
  snapshot_after nan_memory 2 six_samples
  = snapshot_after (fun i => 0%float) 2 six_samples.
Proof. apply snapshot_ignores_uninitialised. lia. Defined.

End CircularBuffer.

(** ** [live_data_store.LiveDataStore] *)

Module LiveDataStore.

(** The lock only serialises the two threads; every method below is one
    critical section. *)
Record t : Type := Build {
  _buffers : gmap string CircularBuffer.t;
  _buffer_capacity : Z;
  _t0 : option float;
  _latest_t : option float
}.

Definition set_buffers (m : gmap string CircularBuffer.t) (self : t) : t :=
  Build m (_buffer_capacity self) (_t0 self) (_latest_t self).
Definition set_t0 (x : option float) (self : t) : t :=
  Build (_buffers self) (_buffer_capacity self) x (_latest_t self).
Definition set_latest_t (x : option float) (self : t) : t :=
  Build (_buffers self) (_buffer_capacity self) (_t0 self) x.

(** [self._buffers[name].method(...)]: the method runs on the buffer object
    stored under [name], and the dictionary sees what it did. *)
Definition item {A} (name : string) (m : Py CircularBuffer.t A) : Py t A :=
  fun self =>
    match _buffers self !! name with
    | None => (inl KeyError, self)
    | Some buf =>
      let '(r, buf') := m buf in
      (r, set_buffers (<[name := buf']> (_buffers self)) self)
    end.

(** A sample as the decoder hands it over: signal name, absolute
    timestamp, value. *)
Definition sample : Type := string * float * float.

(** [__init__] *)
Definition init (buffer_capacity : Z) : t := Build ∅ buffer_capacity None None.

Definition get_latest_timestamp (self : t) : option float := _latest_t self.

Definition clear (self : t) : t := Build ∅ (_buffer_capacity self) None None.

Section WithMemory.

Variable uninit : nat -> float.

Local Open Scope py_scope.

Definition append (signal_name : string) (timestamp value : float)
  : Py t unit :=
  t0 <~ read _t0;
  (if t0 is None then update (set_t0 (Some timestamp)) else py_ret tt);;
  t0 <~ read _t0;
  t_rel <~ eval (match t0 with
                 | Some t0 => inr (timestamp - t0)%float
                 | None => inl TypeError
                 end);
  latest <~ read _latest_t;
  (match latest with
   | None => update (set_latest_t (Some t_rel))
   | Some latest =>
     if (latest <? t_rel)%float then update (set_latest_t (Some t_rel))
     else py_ret tt
   end);;
  buffers <~ read _buffers;
  (match buffers !! signal_name with
   | Some _ => py_ret tt
   | None =>
     capacity <~ read _buffer_capacity;
     buf <~ eval (CircularBuffer.init uninit capacity);
     update (set_buffers (<[signal_name := buf]> buffers))
   end);;
  item signal_name (CircularBuffer.append t_rel value).

(** [(None, None)] for an unknown signal is [None] here. *)
Definition get_arrays (signal_name : string) (self : t)
  : pyexn + option (np.ndarray * np.ndarray) :=
  match _buffers self !! signal_name with
  | None => inr None
  | Some buf =>
    arrays ← CircularBuffer.get_arrays uninit buf; inr (Some arrays)
  end.

(** A session: a run of appends; the first exception ends it. *)
Fixpoint appends (samples : list sample) : Py t unit :=
  match samples with
  | [] => py_ret tt
  | (signal_name, timestamp, value) :: rest =>
    append signal_name timestamp value;; appends rest
  end.

(** *** Sessions *)

(** The samples of a session that belong to one signal, with the time
    relative to [t0]. *)
Definition relative (t0 : float) (signal_name : string) (l : list sample)
  : list (float * float) :=
  omap (fun s : sample =>
          let '(name, timestamp, value) := s in
          if decide (name = signal_name)
          then Some ((timestamp - t0)%float, value) else None) l.

(** Every buffer of the store holds its signal's part of the session [l]. *)
Definition buffers_hold (t0 : float) (self : t) (l : list sample) : Prop :=
  1 <= _buffer_capacity self /\
  forall name,
    match _buffers self !! name with
    | None => relative t0 name l = []
    | Some buf =>
      CircularBuffer.holds buf (relative t0 name l) /\
      CircularBuffer._capacity buf = _buffer_capacity self
    end.

(** [_latest_t] after a sample at relative time [t_rel]. *)
Definition bump (latest : option float) (t_rel : float) : option float :=
  match latest with
  | None => Some t_rel
  | Some m => if (m <? t_rel)%float then Some t_rel else Some m
  end.

Lemma relative_snoc (t0 : float) (name : string) (l : list sample)
    (signal_name : string) (timestamp value : float) :
  relative t0 name (l ++ [(signal_name, timestamp, value)])
  = relative t0 name l ++
    (if decide (signal_name = name)
     then [((timestamp - t0)%float, value)] else []).
Proof.
  unfold relative. rewrite omap_app. simpl.
  destruct (decide (signal_name = name)); done.
Qed.

Ltac run :=
  cbn -[CircularBuffer.append CircularBuffer.init PrimFloat.ltb PrimFloat.sub
        lookup insert] in *.

Lemma append_buffers_hold (t0 : float) (self : t) (l : list sample)
    (signal_name : string) (timestamp value : float) :
  buffers_hold t0 self l ->
  _t0 self = Some t0 \/ (_t0 self = None /\ t0 = timestamp) ->
  exists self',
    append signal_name timestamp value self = (inr tt, self') /\
    _t0 self' = Some t0 /\
    _latest_t self' = bump (_latest_t self) (timestamp - t0)%float /\
    _buffer_capacity self' = _buffer_capacity self /\
    buffers_hold t0 self' (l ++ [(signal_name, timestamp, value)]).
Proof.
  intros [Hcap Hbufs] Ht0.
  destruct self as [buffers capacity t0' latest]. simpl in *.
  (* the buffer the sample goes to, created on first use *)
  assert (exists buf,
    (match buffers !! signal_name with
     | Some b => Some b
     | None => match CircularBuffer.init uninit capacity with
               | inr b => Some b | inl _ => None end
     end) = Some buf /\
    CircularBuffer.holds buf (relative t0 signal_name l) /\
    CircularBuffer._capacity buf = capacity) as (buf & Hbuf & Hholds & Hc).
  { pose proof (Hbufs signal_name) as Hb.
    destruct (buffers !! signal_name) as [b|].
    - exists b. destruct Hb. done.
    - destruct (CircularBuffer.init_holds uninit capacity Hcap)
        as (b & -> & Hh & Hc).
      exists b. rewrite Hb. done. }
  destruct (CircularBuffer.append_holds _ _ (timestamp - t0)%float value Hholds)
    as [Happ Hholds'].
  set (buf' := CircularBuffer.appended (timestamp - t0)%float value buf) in *.
  exists (Build (<[signal_name := buf']> buffers) capacity (Some t0)
            (bump latest (timestamp - t0)%float)).
  split; [|split; [done|split; [done|split; [done|]]]].
  - assert (Hsub : (if t0' is None then Some timestamp else t0') = Some t0).
    { destruct Ht0 as [->|[-> ->]]; done. }
    assert (Hlookup : <[signal_name := buf]> buffers !! signal_name = Some buf)
      by apply lookup_insert_eq.
    unfold append, py_bind, read, update, eval, py_ret, item, bump.
    destruct t0' as [x|]; run;
      (injection Hsub as ->);
      (destruct latest as [m|]; run; [destruct (m <? _)%float; run|]);
      (destruct (buffers !! signal_name) as [b|] eqn:Eb; run;
       [ injection Hbuf as ->; rewrite Eb, Happ
       | destruct (CircularBuffer.init uninit capacity) as [|b] eqn:Ei;
         [discriminate|]; injection Hbuf as ->; run;
         rewrite Hlookup, Happ; unfold set_buffers; run;
         rewrite insert_insert_eq ]);
      reflexivity.
  - split; [done|]. intros name. simpl.
    rewrite relative_snoc.
    destruct (decide (signal_name = name)) as [<-|Hne].
    + rewrite lookup_insert_eq. split; [done|].
      unfold buf', CircularBuffer.appended. done.
    + rewrite lookup_insert_ne, app_nil_r by done.
      apply (Hbufs name).
Qed.

(** A store as [__init__] or [clear] leaves it. *)
Inductive fresh : t -> Prop :=
  | fresh_init (buffer_capacity : Z) : fresh (init buffer_capacity)
  | fresh_clear (self : t) : fresh (clear self).

Lemma fresh_empty (self : t) :
  fresh self ->
  _buffers self = ∅ /\ _t0 self = None /\ _latest_t self = None.
Proof. intros []; done. Qed.

(** The relative times of a session: its first sample fixes the origin. *)
Definition relative_times (l : list sample) : list float :=
  match l with
  | [] => []
  | (_, t0, _) :: _ => (fun s : sample => (s.1.2 - t0)%float) <$> l
  end.

Lemma appends_buffers_hold (t0 : float) (samples l : list sample) (self : t) :
  buffers_hold t0 self l -> _t0 self = Some t0 ->
  exists self',
    appends samples self = (inr tt, self') /\
    _t0 self' = Some t0 /\
    _latest_t self'
    = foldl bump (_latest_t self)
        ((fun s : sample => (s.1.2 - t0)%float) <$> samples) /\
    _buffer_capacity self' = _buffer_capacity self /\
    buffers_hold t0 self' (l ++ samples).
Proof.
  revert l self.
  induction samples as [|[[name ts] v] rest IH]; intros l self Hb Ht0.
  - exists self. rewrite app_nil_r. done.
  - destruct (append_buffers_hold t0 self l name ts v Hb)
      as (self1 & Hrun1 & Ht1 & Hl1 & Hc1 & Hb1); [by left|].
    destruct (IH _ _ Hb1 Ht1) as (self' & Hrun & Ht' & Hl' & Hc' & Hb').
    exists self'. simpl. unfold py_bind. rewrite Hrun1, Hrun.
    rewrite <- app_assoc in Hb'. rewrite Hl', Hl1, Hc', Hc1. done.
Qed.

Lemma session_holds (self : t) (name : string) (ts v : float)
    (rest : list sample) :
  fresh self -> 1 <= _buffer_capacity self ->
  exists self',
    appends ((name, ts, v) :: rest) self = (inr tt, self') /\
    _t0 self' = Some ts /\
    _latest_t self' = foldl bump None (relative_times ((name, ts, v) :: rest)) /\
    _buffer_capacity self' = _buffer_capacity self /\
    buffers_hold ts self' ((name, ts, v) :: rest).
Proof.
  intros Hfresh Hcap.
  destruct (fresh_empty self Hfresh) as (Hbufs & Ht0 & Hlatest).
  assert (Hb : buffers_hold ts self []).
  { split; [done|]. intros n. rewrite Hbufs, lookup_empty. done. }
  destruct (append_buffers_hold ts self [] name ts v Hb)
    as (self1 & Hrun1 & Ht1 & Hl1 & Hc1 & Hb1); [by right|].
  destruct (appends_buffers_hold ts rest _ self1 Hb1 Ht1)
    as (self' & Hrun & Ht' & Hl' & Hc' & Hb').
  exists self'. simpl. unfold py_bind. rewrite Hrun1, Hrun.
  rewrite Hl', Hl1, Hlatest, Hc', Hc1. done.
Qed.

Lemma last_last_n {A} (n : nat) (l : list A) (x : A) :
  (1 <= n)%nat -> last (last_n n (l ++ [x])) = Some x.
Proof.
  intros Hn. unfold last_n. rewrite length_app. simpl.
  rewrite drop_app_le by lia. apply last_snoc.
Qed.

Lemma get_arrays_holds (self : t) (t0 : float) (l : list sample)
    (name : string) (buf : CircularBuffer.t) :
  buffers_hold t0 self l -> _buffers self !! name = Some buf ->
  get_arrays name self
  = inr (Some ((last_n (Z.to_nat (_buffer_capacity self))
                  (relative t0 name l)).*1,
               (last_n (Z.to_nat (_buffer_capacity self))
                  (relative t0 name l)).*2)).
Proof.
  intros [Hcap Hb] Hbuf. specialize (Hb name). rewrite Hbuf in Hb.
  destruct Hb as [(Hwf & _ & Ht & Hv) Hc].
  unfold get_arrays. rewrite Hbuf.
  rewrite (CircularBuffer.get_arrays_ring uninit buf Hwf), Ht, Hv, Hc.
  rewrite !last_n_fmap. done.
Qed.

Lemma buffers_hold_lookup (self : t) (t0 : float) (l : list sample)
    (name : string) (ts v : float) :
  buffers_hold t0 self (l ++ [(name, ts, v)]) ->
  is_Some (_buffers self !! name).
Proof.
  intros [_ Hb]. specialize (Hb name).
  destruct (_buffers self !! name); [done|].
  rewrite relative_snoc, decide_True in Hb by done.
  by destruct (relative t0 name l).
Qed.

(** C3. On a store freshly constructed or cleared, the first append makes
    its own timestamp the origin [t0], so the sample is stored at relative
    time [0.0]; every later append of the session stores its sample at
    [timestamp - t0]. *)
Theorem first_append_fixes_t0
    (self : t) (signal_name : string) (timestamp value : float) :
  fresh self -> 1 <= _buffer_capacity self -> is_finite timestamp = true ->
  exists self1,
    append signal_name timestamp value self = (inr tt, self1) /\
    _t0 self1 = Some timestamp /\
    get_arrays signal_name self1 = inr (Some ([0%float], [value])) /\
    forall (later : list sample) (name : string) (ts v : float),
    exists self2 self3 times values,
      appends later self1 = (inr tt, self2) /\
      append name ts v self2 = (inr tt, self3) /\
      _t0 self3 = Some timestamp /\
      get_arrays name self3 = inr (Some (times, values)) /\
      last times = Some (ts - timestamp)%float /\
      last values = Some v.
Proof.
  intros Hfresh Hcap Hfin.
  destruct (fresh_empty self Hfresh) as (Hbufs & Ht0 & Hlatest).
  assert (Hb : buffers_hold timestamp self []).
  { split; [done|]. intros n. rewrite Hbufs, lookup_empty. done. }
  destruct (append_buffers_hold timestamp self [] signal_name timestamp value Hb)
    as (self1 & Hrun1 & Ht1 & Hl1 & Hc1 & Hb1); [by right|].
  exists self1. split; [done|]. split; [done|]. split.
  - destruct (buffers_hold_lookup _ _ _ _ _ _ Hb1) as [buf Hbuf].
    rewrite (get_arrays_holds _ _ _ _ _ Hb1 Hbuf).
    simpl. rewrite decide_True by done.
    rewrite last_n_all by (simpl; lia). simpl.
    rewrite F64.sub_diag by done. done.
  - intros later name ts v.
    destruct (appends_buffers_hold timestamp later _ self1 Hb1 Ht1)
      as (self2 & Hrun2 & Ht2 & _ & Hc2 & Hb2).
    destruct (append_buffers_hold timestamp self2 _ name ts v Hb2)
      as (self3 & Hrun3 & Ht3 & _ & Hc3 & Hb3); [by left|].
    destruct (buffers_hold_lookup _ _ _ _ _ _ Hb3) as [buf Hbuf].
    eexists self2, self3, _, _.
    split; [done|]. split; [done|]. split; [done|].
    split; [apply (get_arrays_holds _ _ _ _ _ Hb3 Hbuf)|].
    rewrite relative_snoc, decide_True by done.
    rewrite !fmap_last, last_last_n by lia. done.
Qed.

(** *** The latest timestamp *)

(** [m] is a maximum of [xs]: one of them, and none is above it. *)
Definition is_max (m : float) (xs : list float) : Prop :=
  m ∈ xs /\ forall x, x ∈ xs -> (x <=? m)%float = true.

(** [None] is below everything. *)
Definition opt_le (a b : option float) : Prop :=
  match a, b with
  | None, _ => True
  | Some x, Some y => (x <=? y)%float = true
  | Some _, None => False
  end.

Lemma bump_max (m x : float) (seen : list float) :
  is_max m seen -> is_nan x = false ->
  exists m', bump (Some m) x = Some m' /\ is_max m' (seen ++ [x]).
Proof.
  intros [Hin Hle] Hx.
  assert (Hm : is_nan m = false) by (apply (F64.leb_not_nan m m), Hle, Hin).
  unfold bump. destruct (m <? x)%float eqn:E.
  - exists x. split; [done|]. split; [set_solver|].
    intros y [Hy|Hy]%elem_of_app.
    + apply F64.ltb_leb, (F64.leb_ltb_trans y m x); auto.
    + apply list_elem_of_singleton in Hy as ->. by apply F64.leb_refl.
  - exists m. split; [done|]. split; [set_solver|].
    intros y [Hy|Hy]%elem_of_app; [auto|].
    apply list_elem_of_singleton in Hy as ->.
    rewrite F64.ltb_negb_leb in E by done.
    by destruct (x <=? m)%float.
Qed.

Lemma foldl_bump_max (m : float) (seen xs : list float) :
  is_max m seen -> Forall (fun x => is_nan x = false) xs ->
  exists m', foldl bump (Some m) xs = Some m' /\ is_max m' (seen ++ xs).
Proof.
  revert m seen. induction xs as [|x xs IH]; intros m seen Hm Hxs.
  - exists m. rewrite app_nil_r. done.
  - apply Forall_cons in Hxs as [Hx Hxs].
    destruct (bump_max m x seen Hm Hx) as (m1 & Hb & Hm1).
    destruct (IH m1 (seen ++ [x]) Hm1 Hxs) as (m' & Hf & Hm').
    exists m'. cbn [foldl]. rewrite Hb, Hf. rewrite <- app_assoc in Hm'. done.
Qed.

Lemma relative_times_not_nan (l : list sample) :
  Forall (fun s : sample => is_finite s.1.2 = true) l ->
  Forall (fun x => is_nan x = false) (relative_times l).
Proof.
  destruct l as [|[[n0 t0] v0] rest]; [constructor|].
  intros Hl. pose proof (Forall_inv Hl) as H0. simpl in H0.
  unfold relative_times. apply Forall_fmap.
  eapply Forall_impl; [exact Hl|].
  intros [[n ts] v] Hts. simpl in *. by apply F64.sub_finite_not_nan.
Qed.

Lemma session_latest (l : list sample) :
  Forall (fun s : sample => is_finite s.1.2 = true) l ->
  match l with
  | [] => foldl bump None (relative_times l) = None
  | _ => exists m, foldl bump None (relative_times l) = Some m /\
                   is_max m (relative_times l)
  end.
Proof.
  intros Hl. pose proof (relative_times_not_nan l Hl) as Hn.
  destruct l as [|[[n0 t0] v0] rest]; [done|].
  unfold relative_times in *. rewrite fmap_cons in *. cbn [foldl bump].
  apply Forall_cons in Hn as [H0 Hn].
  set (x := (_ - t0)%float) in *.
  assert (Hx : is_max x [x]).
  { split; [set_solver|]. intros y Hy.
    apply list_elem_of_singleton in Hy as ->. by apply F64.leb_refl. }
  apply (foldl_bump_max x [x] _ Hx Hn).
Qed.

Lemma relative_times_app (earlier later : list sample) :
  earlier <> [] ->
  relative_times earlier ⊆ relative_times (earlier ++ later).
Proof.
  destruct earlier as [|[[n0 t0] v0] rest]; [done|]. intros _.
  unfold relative_times. simpl. rewrite fmap_app.
  intros y Hy. rewrite app_comm_cons. apply elem_of_app. by left.
Qed.

(** C4. After any session of appends on a fresh store,
    [get_latest_timestamp] is the greatest relative timestamp of the
    session, over all signals ([None] for the empty session); it never
    decreases as the session goes on. *)
Theorem latest_timestamp_is_max (self : t) (samples : list sample) :
  fresh self -> 1 <= _buffer_capacity self ->
  Forall (fun s : sample => is_finite s.1.2 = true) samples ->
  exists self',
    appends samples self = (inr tt, self') /\
    match samples with
    | [] => get_latest_timestamp self' = None
    | _ => exists m, get_latest_timestamp self' = Some m /\
                     is_max m (relative_times samples)
    end /\
    forall earlier later, samples = earlier ++ later ->
    exists mid,
      appends earlier self = (inr tt, mid) /\
      opt_le (get_latest_timestamp mid) (get_latest_timestamp self').
Proof.
  intros Hfresh Hcap Hfin.
  assert (Hrun : forall l, exists self',
    appends l self = (inr tt, self') /\
    get_latest_timestamp self' = foldl bump None (relative_times l)).
  { intros [|[[n ts] v] rest].
    - exists self. split; [done|]. by destruct Hfresh.
    - destruct (session_holds self n ts v rest Hfresh Hcap)
        as (self' & Hr & _ & Hl & _). by exists self'. }
  destruct (Hrun samples) as (self' & Hr & Hl).
  exists self'. split; [done|].
  pose proof (session_latest samples Hfin) as Hmax. rewrite <- Hl in Hmax.
  split; [exact Hmax|].
  intros earlier later ->.
  destruct (Hrun earlier) as (mid & Hr1 & Hl1).
  exists mid. split; [done|].
  apply Forall_app in Hfin as [Hfin1 _].
  pose proof (session_latest earlier Hfin1) as Hmax1. rewrite <- Hl1 in Hmax1.
  destruct earlier as [|s1 rest1].
  { rewrite Hmax1. done. }
  destruct Hmax1 as (m1 & -> & Hin1 & _).
  simpl in Hmax. destruct Hmax as (m & -> & _ & Hle).
  simpl. apply Hle.
  apply (relative_times_app (s1 :: rest1) later); done.
Qed.

(** *** Stores that take any append *)

(** Every buffer of the store is a ring of the store's capacity, which is
    at least 1. *)
Definition well_formed (self : t) : Prop :=
  1 <= _buffer_capacity self /\
  forall name buf, _buffers self !! name = Some buf -> CircularBuffer.wf buf.

Lemma init_well_formed (buffer_capacity : Z) :
  1 <= buffer_capacity -> well_formed (init buffer_capacity).
Proof.
  intros Hc. split; [done|]. intros name buf. simpl.
  by rewrite lookup_empty.
Qed.

Lemma append_well_formed (self : t) (signal_name : string)
    (timestamp value : float) :
  well_formed self ->
  exists self',
    append signal_name timestamp value self = (inr tt, self') /\
    well_formed self'.
Proof.
  intros [Hcap Hbufs].
  destruct self as [buffers capacity t0 latest]. simpl in *.
  assert (exists buf,
    (match buffers !! signal_name with
     | Some b => Some b
     | None => match CircularBuffer.init uninit capacity with
               | inr b => Some b | inl _ => None end
     end) = Some buf /\ CircularBuffer.wf buf) as (buf & Hbuf & Hwf).
  { destruct (buffers !! signal_name) as [b|] eqn:Eb.
    - exists b. split; [done|]. by apply (Hbufs signal_name).
    - destruct (CircularBuffer.init_holds uninit capacity Hcap)
        as (b & -> & [Hwf _] & _). by exists b. }
  set (origin := default timestamp t0).
  set (t_rel := (timestamp - origin)%float).
  pose proof (CircularBuffer.append_wf buf t_rel value Hwf) as Happ.
  set (buf' := CircularBuffer.appended t_rel value buf) in *.
  exists (Build (<[signal_name := buf']> buffers) capacity (Some origin)
            (match latest with
             | None => Some t_rel
             | Some m => if (m <? t_rel)%float then Some t_rel else Some m
             end)).
  split.
  - assert (Hlookup : <[signal_name := buf]> buffers !! signal_name = Some buf)
      by apply lookup_insert_eq.
    unfold append, py_bind, read, update, eval, py_ret, item.
    unfold t_rel, origin in *.
    destruct t0 as [x|];
      cbn -[CircularBuffer.append CircularBuffer.init PrimFloat.ltb
            PrimFloat.sub lookup insert] in *;
      (destruct latest as [m|];
       cbn -[CircularBuffer.append CircularBuffer.init PrimFloat.ltb
             PrimFloat.sub lookup insert] in *;
       [destruct (m <? _)%float;
        cbn -[CircularBuffer.append CircularBuffer.init PrimFloat.ltb
              PrimFloat.sub lookup insert] in *|]);
      (destruct (buffers !! signal_name) as [b|] eqn:Eb;
       cbn -[CircularBuffer.append CircularBuffer.init PrimFloat.ltb
             PrimFloat.sub lookup insert] in *;
       [ injection Hbuf as ->; rewrite Eb, Happ
       | destruct (CircularBuffer.init uninit capacity) as [|b] eqn:Ei;
         [discriminate|]; injection Hbuf as ->;
         cbn -[CircularBuffer.append CircularBuffer.init PrimFloat.ltb
               PrimFloat.sub lookup insert] in *;
         rewrite Hlookup, Happ; unfold set_buffers;
         cbn -[CircularBuffer.append CircularBuffer.init PrimFloat.ltb
               PrimFloat.sub lookup insert] in *;
         rewrite insert_insert_eq ]);
      reflexivity.
  - split; [done|]. intros name b. simpl.
    destruct (decide (signal_name = name)) as [<-|Hne].
    + rewrite lookup_insert_eq. intros [= <-].
      by apply CircularBuffer.appended_wf.
    + rewrite lookup_insert_ne by done. apply Hbufs.
Qed.

End WithMemory.

(** A session over two signals, the second arriving out of order. *)
Definition two_signals : list sample :=
  [("a", 100, 1); ("b", 100.5, 2); ("a", 101, 3); ("b", 100.25, 7)]%float.

Example two_signals_session :
  let self := state_of (appends CircularBuffer.nan_memory two_signals (init 5)) in
  _t0 self = Some 100%float /\
  get_latest_timestamp self = Some 1%float /\
  get_arrays CircularBuffer.nan_memory "a" self
  = inr (Some ([0; 1]%float, [1; 3]%float)) /\
  get_arrays CircularBuffer.nan_memory "b" self
  = inr (Some ([0.5; 0.25]%float, [2; 7]%float)) /\
  get_arrays CircularBuffer.nan_memory "c" self = inr None.
Proof. vm_compute. repeat split. Qed.

Example empty_store :
  get_arrays CircularBuffer.nan_memory "speed" (init 5) = inr None /\
  get_latest_timestamp (init 5) = None.
Proof. split; reflexivity. Qed.

Lemma first_append_fixes_t0_witness :
  exists self1,
    append CircularBuffer.nan_memory "a" 100 1 (init 5) = (inr tt, self1) /\
    _t0 self1 = Some 100%float /\
    get_arrays CircularBuffer.nan_memory "a" self1
    = inr (Some ([0%float], [1%float])) /\
    exists self3 times values,
      append CircularBuffer.nan_memory "b" 100.5 2 self1 = (inr tt, self3) /\
      get_arrays CircularBuffer.nan_memory "b" self3
      = inr (Some (times, values)) /\
      last times = Some (100.5 - 100)%float /\
      last values = Some 2%float.
Proof.
  destruct (first_append_fixes_t0 CircularBuffer.nan_memory (init 5) "a" 100 1)
    as (self1 & Hrun & Ht0 & Hget & Hlater);
    [constructor | simpl; lia | reflexivity |].
  exists self1. repeat split; try assumption.
  destruct (Hlater [] "b" 100.5%float 2%float)
    as (self2 & self3 & times & values & H2 & H3 & _ & Hg & Ht & Hv).
  injection H2 as <-.
  exists self3, times, values. auto.
Defined.

Lemma latest_timestamp_is_max_witness :
  exists self' m,
    appends CircularBuffer.nan_memory two_signals (init 5) = (inr tt, self') /\
    get_latest_timestamp self' = Some m /\
    is_max m [0; 0.5; 1; 0.25]%float.
Proof.
  destruct (latest_timestamp_is_max CircularBuffer.nan_memory (init 5)
              two_signals)
    as (self' & Hrun & (m & Hl & Hm) & _);
    [constructor | simpl; lia | repeat constructor |].
  exists self', m. auto.
Defined.

(** *** Signal names and whole sessions *)

(** [get_signal_names] *)
Definition get_signal_names (self : t) : list string :=
  sorted (map_to_list (_buffers self)).*1.

Section MoreSessions.

Variable uninit : nat -> float.

Ltac step :=
  cbn -[CircularBuffer.append CircularBuffer.init PrimFloat.ltb PrimFloat.sub
        lookup insert dom] in *.

Lemma append_dom (signal_name : string) (timestamp value : float)
    (self self' : t) (r : pyexn + unit) :
  append uninit signal_name timestamp value self = (r, self') ->
  dom (_buffers self) ⊆ dom (_buffers self') /\
  dom (_buffers self') ⊆ {[signal_name]} ∪ dom (_buffers self) /\
  (r = inr tt -> signal_name ∈ dom (_buffers self')) /\
  _buffer_capacity self' = _buffer_capacity self.
Proof.
  destruct self as [buffers capacity t0 latest].
  unfold append, py_bind, read, update, eval, py_ret, item.
  destruct t0 as [x|]; step;
    (destruct latest as [m|]; step; [destruct (m <? _)%float; step|]);
    (destruct (buffers !! signal_name) as [b|] eqn:Eb; step;
     [ rewrite Eb
     | destruct (CircularBuffer.init uninit capacity) as [e|b] eqn:Ei; step;
       [|rewrite lookup_insert_eq] ]);
    try (destruct (CircularBuffer.append _ _ _) as [r' buf']);
    intros [= <- <-]; step; rewrite ?dom_insert_L;
    try (apply elem_of_dom_2 in Eb);
    (split; [set_solver|split; [set_solver|split; [|done]]]);
    try discriminate; intros _; set_solver.
Qed.


Lemma appends_dom (samples : list sample) (self self' : t) (r : pyexn + unit) :
  appends uninit samples self = (r, self') ->
  dom (_buffers self) ⊆ dom (_buffers self') /\
  dom (_buffers self') ⊆ list_to_set samples.*1.*1 ∪ dom (_buffers self) /\
  (r = inr tt -> list_to_set samples.*1.*1 ⊆ dom (_buffers self')) /\
  _buffer_capacity self' = _buffer_capacity self.
Proof.
  revert self. induction samples as [|[[name ts] v] rest IH]; intros self.
  - intros [= <- <-]. set_solver.
  - cbn [appends]. unfold py_bind.
    destruct (append uninit name ts v self) as [[e|[]] self1] eqn:E1;
      apply append_dom in E1 as (H1 & H2 & H3 & H4).
    + intros [= <- <-]. rewrite !fmap_cons. cbn [fst list_to_set].
      split; [done|]. split; [clear -H2; set_solver|]. done.
    + intros (H5 & H6 & H7 & H8)%IH. clear IH.
      rewrite !fmap_cons. cbn [fst list_to_set].
      split; [by etrans|]. split; [clear -H2 H6; set_solver|].
      split; [|congruence].
      intros Hr. specialize (H3 eq_refl). specialize (H7 Hr).
      clear -H3 H5 H7. set_solver.
Qed.

Lemma relative_nil (t0 : float) (name : string) (l : list sample) :
  relative t0 name l = [] <-> name ∉ l.*1.*1.
Proof.
  induction l as [|[[n ts] v] rest IH]; [set_solver|].
  rewrite !fmap_cons. cbn [fst].
  change (relative t0 name ((n, ts, v) :: rest))
    with (match (if decide (n = name)
                 then Some ((ts - t0)%float, v) else None) with
          | Some y => y :: relative t0 name rest
          | None => relative t0 name rest
          end).
  destruct (decide (n = name)) as [->|Hne].
  - split; [done|]. set_solver.
  - rewrite IH. set_solver.
Qed.

(** The samples of a session that belong to one signal, relative to the
    session's first timestamp. *)
Definition session_of (signal_name : string) (samples : list sample)
  : list (float * float) :=
  match samples with
  | [] => []
  | (_, t0, _) :: _ => relative t0 signal_name samples
  end.

Lemma session_runs (self : t) (samples : list sample) :
  fresh self -> 1 <= _buffer_capacity self ->
  exists self',
    appends uninit samples self = (inr tt, self') /\
    _buffer_capacity self' = _buffer_capacity self /\
    dom (_buffers self') = list_to_set samples.*1.*1 /\
    forall name buf, _buffers self' !! name = Some buf ->
      CircularBuffer.holds buf (session_of name samples) /\
      CircularBuffer._capacity buf = _buffer_capacity self.
Proof.
  intros Hfresh Hcap.
  destruct (fresh_empty self Hfresh) as (Hbufs & _).
  destruct samples as [|[[n0 t0] v0] rest].
  - exists self. split; [done|]. split; [done|]. split.
    + rewrite Hbufs. set_solver.
    + intros name buf. by rewrite Hbufs, lookup_empty.
  - destruct (session_holds uninit self n0 t0 v0 rest Hfresh Hcap)
      as (self' & Hrun & _ & _ & Hc & _ & Hb).
    exists self'. split; [done|]. split; [done|].
    apply appends_dom in Hrun as (_ & Hsub & Hsup & _).
    specialize (Hsup eq_refl). rewrite Hbufs, dom_empty_L in Hsub.
    split; [set_solver|].
    intros name buf Hbuf. specialize (Hb name). rewrite Hbuf, Hc in Hb. done.
Qed.

(** Signals are kept apart: after a session on a fresh store, the snapshot
    of a signal holds the last [capacity] samples of that signal alone, at
    times relative to the first sample of the whole session; a signal that
    did not occur has no snapshot. *)
Theorem session_snapshot (self : t) (samples : list sample) (name : string) :
  fresh self -> 1 <= _buffer_capacity self ->
  exists self',
    appends uninit samples self = (inr tt, self') /\
    get_arrays uninit name self'
    = inr (match session_of name samples with
           | [] => None
           | own =>
             let kept := last_n (Z.to_nat (_buffer_capacity self)) own in
             Some (kept.*1, kept.*2)
           end).
Proof.
  intros Hfresh Hcap.
  destruct (session_runs self samples Hfresh Hcap)
    as (self' & Hrun & Hc & Hdom & Hb).
  exists self'. split; [done|].
  unfold get_arrays.
  destruct (_buffers self' !! name) as [buf|] eqn:Hbuf.
  - destruct (Hb name buf Hbuf) as [(Hwf & _ & Ht & Hv) Hcb].
    rewrite (CircularBuffer.get_arrays_ring uninit buf Hwf), Ht, Hv, Hcb.
    apply elem_of_dom_2 in Hbuf. rewrite Hdom, elem_of_list_to_set in Hbuf.
    unfold session_of in *.
    destruct samples as [|[[n0 t0] v0] rest]; [set_solver|].
    destruct (relative t0 name _) eqn:E.
    + apply relative_nil in E. done.
    + cbv zeta. rewrite !last_n_fmap. done.
  - apply not_elem_of_dom_2 in Hbuf.
    rewrite Hdom, elem_of_list_to_set in Hbuf.
    unfold session_of. destruct samples as [|[[n0 t0] v0] rest]; [done|].
    apply (relative_nil t0) in Hbuf. by rewrite Hbuf.
Qed.

Lemma get_signal_names_elem (self : t) (name : string) :
  name ∈ get_signal_names self <-> name ∈ dom (_buffers self).
Proof.
  unfold get_signal_names, sorted.
  rewrite merge_sort_Permutation, elem_of_dom.
  rewrite list_elem_of_fmap. split.
  - intros ([n buf] & -> & Hin%elem_of_map_to_list). by exists buf.
  - intros [buf Hbuf]. exists (name, buf). by rewrite elem_of_map_to_list.
Qed.

(** The names come out in ascending order, each once, and they are the
    signals [get_arrays] has a snapshot for. *)
Theorem get_signal_names_sorted (self : t) :
  StronglySorted String.le (get_signal_names self) /\
  NoDup (get_signal_names self) /\
  forall name,
    name ∈ get_signal_names self <-> get_arrays uninit name self <> inr None.
Proof.
  split; [apply StronglySorted_merge_sort; apply _|]. split.
  - unfold get_signal_names, sorted. rewrite merge_sort_Permutation.
    apply NoDup_fst_map_to_list.
  - intros name. rewrite get_signal_names_elem, elem_of_dom.
    unfold get_arrays. destruct (_buffers self !! name) as [buf|].
    + split; [|by eauto]. intros _.
      by destruct (CircularBuffer.get_arrays uninit buf).
    + split; [by intros []|done].
Qed.

(** After a session on a fresh store the signal names are the names of the
    session's samples, whatever the order of arrival. *)
Theorem session_signal_names (self : t) (samples : list sample) :
  fresh self -> 1 <= _buffer_capacity self ->
  exists self',
    appends uninit samples self = (inr tt, self') /\
    get_signal_names self' = sorted (remove_dups samples.*1.*1).
Proof.
  intros Hfresh Hcap.
  destruct (session_runs self samples Hfresh Hcap)
    as (self' & Hrun & _ & Hdom & _).
  exists self'. split; [done|].
  apply (Sorted_unique String.le).
  - apply Sorted_merge_sort; apply _.
  - apply Sorted_merge_sort; apply _.
  - unfold get_signal_names, sorted. rewrite !merge_sort_Permutation.
    apply NoDup_Permutation.
    + apply NoDup_fst_map_to_list.
    + apply NoDup_remove_dups.
    + intros name. rewrite elem_of_remove_dups.
      rewrite <- (elem_of_list_to_set (C := gset string) name samples.*1.*1).
      rewrite <- Hdom.
      rewrite elem_of_dom, list_elem_of_fmap. split.
      * intros ([n buf] & -> & Hin%elem_of_map_to_list). by exists buf.
      * intros [buf Hbuf]. exists (name, buf). by rewrite elem_of_map_to_list.
Qed.

(** A store without room: the first append on a fresh store of capacity 0
    raises [IndexError], one of negative capacity [ValueError]; either way
    the origin and the latest timestamp are already set when it raises, and
    with capacity 0 an empty buffer is left under the signal's name. *)
Theorem append_without_capacity
    (self : t) (signal_name : string) (timestamp value : float) :
  fresh self -> _buffer_capacity self <= 0 ->
  exists self',
    append uninit signal_name timestamp value self
    = (inl (if _buffer_capacity self =? 0 then IndexError else ValueError),
       self') /\
    _t0 self' = Some timestamp /\
    get_latest_timestamp self' = Some (timestamp - timestamp)%float /\
    get_arrays uninit signal_name self'
    = inr (if _buffer_capacity self =? 0 then Some ([], []) else None).
Proof.
  intros Hfresh Hcap.
  assert (exists c, self = Build ∅ c None None) as [c ->]
    by (destruct Hfresh; eexists; reflexivity).
  cbn [_buffer_capacity] in *.
  unfold append, py_bind, read, update, eval, py_ret, item. step.
  rewrite lookup_empty. step.
  unfold CircularBuffer.init, np.empty.
  destruct (Z.eqb_spec c 0) as [->|Hne].
  - step. rewrite lookup_insert_eq. step.
    eexists. split; [reflexivity|]. step.
    unfold get_arrays. step. rewrite lookup_insert_eq. done.
  - destruct (Z.ltb_spec c 0); [|lia]. step.
    eexists. split; [reflexivity|]. step.
    unfold get_arrays. step. by rewrite lookup_empty.
Qed.

Lemma appends_well_formed (samples : list sample) (self : t) :
  well_formed self ->
  exists self',
    appends uninit samples self = (inr tt, self') /\ well_formed self'.
Proof.
  revert self. induction samples as [|[[name ts] v] rest IH]; intros self Hwf.
  - by exists self.
  - destruct (append_well_formed uninit self name ts v Hwf)
      as (self1 & Hrun1 & Hwf1).
    destruct (IH self1 Hwf1) as (self' & Hrun & Hwf').
    exists self'. cbn [appends]. unfold py_bind. by rewrite Hrun1, Hrun.
Qed.

End MoreSessions.

(** Three samples of two signals, the later name first. *)
Definition b_first : list sample :=
  [("b", 10, 1); ("a", 11, 2); ("b", 12, 3)]%float.

Example b_first_names :
  get_signal_names
    (state_of (appends CircularBuffer.nan_memory b_first (init 5)))
  = ["a"; "b"] /\
  get_signal_names (init 5) = [].
Proof. vm_compute. split; reflexivity. Qed.

Lemma session_snapshot_witness :
  exists self',
    appends CircularBuffer.nan_memory two_signals (init 1) = (inr tt, self') /\
    get_arrays CircularBuffer.nan_memory "b" self'
    = inr (Some ([0.25]%float, [7]%float)) /\
    get_arrays CircularBuffer.nan_memory "c" self' = inr None.
Proof.
  destruct (session_snapshot CircularBuffer.nan_memory (init 1) two_signals "b")
    as (self' & Hrun & Hb); [constructor | simpl; lia |].
  destruct (session_snapshot CircularBuffer.nan_memory (init 1) two_signals "c")
    as (self'' & Hrun' & Hc); [constructor | simpl; lia |].
  rewrite Hrun in Hrun'. injection Hrun' as <-.
  exists self'. split; [exact Hrun|]. split; [exact Hb | exact Hc].
Defined.

Lemma session_signal_names_witness :
  exists self',
    appends CircularBuffer.nan_memory b_first (init 5) = (inr tt, self') /\
    get_signal_names self' = ["a"; "b"].
Proof.
  destruct (session_signal_names CircularBuffer.nan_memory (init 5) b_first)
    as (self' & Hrun & Hnames); [constructor | simpl; lia |].
  exists self'. split; [exact Hrun | exact Hnames].
Defined.

Lemma append_without_capacity_witness :
  exists self',
    append CircularBuffer.nan_memory "a" 100 1 (init 0)
    = (inl IndexError, self') /\
    _t0 self' = Some 100%float /\
    get_arrays CircularBuffer.nan_memory "a" self' = inr (Some ([], [])).
Proof.
  destruct (append_without_capacity CircularBuffer.nan_memory (init 0)
              "a" 100 1)
    as (self' & Hrun & Ht0 & _ & Hget); [constructor | simpl; lia |].
  exists self'. split; [exact Hrun|]. split; [exact Ht0 | exact Hget].
Defined.
End LiveDataStore.

(** ** [constants] *)

Module constants.

(** Time window options for the x-axis (seconds, [None] = show all). *)
Definition TIME_WINDOWS : gmap string (option Z) :=
  list_to_map
    [("win_10s", Some 10); ("win_30s", Some 30); ("win_60s", Some 60);
     ("win_120s", Some 120); ("win_300s", Some 300); ("win_all", None)].

Definition BUFFER_INITIAL_CAPACITY : Z := 50000.

(** Fractional padding for the value range set by hand. *)
Definition Y_RANGE_PADDING : float := 0x1.999999999999ap-5%float. (* 50e-3 *)

End constants.

(** ** [figure_block.FigureBlock]: the data side of a refresh

    The drawing of the lines ([setData]) is not modelled; a block is the
    list of the signals of its visible lines. *)

Module FigureBlock.

Record bounds : Type := Bounds {
  y_lo : float;
  y_hi : float;
  has_data : bool
}.

(** The two searches of [refresh_plots] on a time array. *)
Definition visible_indices (t : np.ndarray) (visible_t_range : float * float)
  : Z * Z :=
  (np.searchsorted t visible_t_range.1 np.left,
   np.searchsorted t visible_t_range.2 np.right).

(** On an ascending time array, for any window [[t_lo, t_hi]]: [i_lo] is
    the first index with time [>= t_lo], [i_hi] the first with time
    [> t_hi], and the indices between them are exactly those of the samples
    inside the window. *)
Lemma visible_indices_bracket (t : np.ndarray) (t_lo t_hi : float) :
  np.ascending t = true -> is_nan t_lo = false -> is_nan t_hi = false ->
  let '(i_lo, i_hi) := visible_indices t (t_lo, t_hi) in
  0 <= i_lo <= Z.of_nat (length t) /\
  0 <= i_hi <= Z.of_nat (length t) /\
  forall (j : nat) (x : float), t !! j = Some x ->
    (i_lo <= Z.of_nat j <-> (t_lo <=? x)%float = true) /\
    (i_hi <= Z.of_nat j <-> (t_hi <? x)%float = true) /\
    (i_lo <= Z.of_nat j < i_hi <->
     (t_lo <=? x)%float = true /\ (x <=? t_hi)%float = true).
Proof.
  intros Ht Hmin Hend. unfold visible_indices. simpl.
  destruct (np.searchsorted_left t t_lo Ht Hmin) as [Hlo Hleft].
  destruct (np.searchsorted_right t t_hi Ht Hend) as [Hhi Hright].
  split; [done|]. split; [done|].
  intros j x Hj.
  pose proof (np.ascending_not_nan t j x Ht Hj) as Hx.
  specialize (Hleft j x Hj). specialize (Hright j x Hj).
  rewrite (F64.ltb_negb_leb x t_lo Hx Hmin) in Hleft.
  rewrite (F64.ltb_negb_leb t_hi x Hend Hx).
  destruct (t_lo <=? x)%float, (x <=? t_hi)%float; simpl in *;
    intuition (try lia; try discriminate).
Qed.

(** The body of the loop of [refresh_plots] for one visible line. *)
Definition refresh_line (t val : np.ndarray)
    (visible_t_range : option (float * float)) (acc : bounds)
  : pyexn + bounds :=
  match visible_t_range with
  | Some range =>
    if (0 <? Z.of_nat (length t)) then
      let '(i_lo, i_hi) := visible_indices t range in
      if i_lo <? i_hi then
        let vis := np.slice val (Some i_lo) (Some i_hi) in
        lo ← np.min vis;
        hi ← np.max vis;
        inr (Bounds (py_min (y_lo acc) lo) (py_max (y_hi acc) hi) true)
      else inr acc
    else inr acc
  | None => inr acc
  end.

Section WithMemory.

Variable uninit : nat -> float.

Fixpoint refresh_lines (data_store : LiveDataStore.t)
    (visible_signals : list string)
    (visible_t_range : option (float * float)) (acc : bounds)
  : pyexn + bounds :=
  match visible_signals with
  | [] => inr acc
  | sig_name :: rest =>
    arrays ← LiveDataStore.get_arrays uninit sig_name data_store;
    acc ← match arrays with
           | Some (t, val) => refresh_line t val visible_t_range acc
           | None => inr acc
           end;
    refresh_lines data_store rest visible_t_range acc
  end.

Definition refresh_plots (data_store : LiveDataStore.t)
    (visible_signals : list string)
    (visible_t_range : option (float * float))
  : pyexn + option (float * float) :=
  acc ← refresh_lines data_store visible_signals visible_t_range
          (Bounds infinity neg_infinity false);
  match visible_t_range with
  | Some _ => if has_data acc then inr (Some (y_lo acc, y_hi acc)) else inr None
  | None => inr None
  end.

End WithMemory.

(** *** The value range of a block *)

(** A time inside the window, both ends included. *)
Definition in_window (range : float * float) (x : float) : bool :=
  (range.1 <=? x)%float && (x <=? range.2)%float.

(** The values of a line at the times inside the window. *)
Definition visible_values (t val : np.ndarray) (range : float * float)
  : list float :=
  (filter (fun p : float * float => in_window range p.1 = true)
          (zip t val)).*2.

Definition is_min (m : float) (xs : list float) : Prop :=
  m ∈ xs /\ forall x, x ∈ xs -> (m <=? x)%float = true.

(** What the accumulator of [refresh_plots] knows after the values
    [seen]. *)
Definition tracks (acc : bounds) (seen : list float) : Prop :=
  if has_data acc
  then is_min (y_lo acc) seen /\ LiveDataStore.is_max (y_hi acc) seen
  else seen = [] /\ y_lo acc = infinity /\ y_hi acc = neg_infinity.

(** A line that can be plotted: ascending times, as many values as times,
    and no NaN among the values. *)
Definition plottable (t val : np.ndarray) : Prop :=
  np.ascending t = true /\ length val = length t /\
  Forall (fun y => is_nan y = false) val.

Lemma slice_visible (t val : np.ndarray) (range : float * float) :
  np.ascending t = true -> length val = length t ->
  is_nan range.1 = false -> is_nan range.2 = false ->
  let '(i_lo, i_hi) := visible_indices t range in
  0 <= i_lo <= Z.of_nat (length t) /\ 0 <= i_hi <= Z.of_nat (length t) /\
  np.slice val (Some i_lo) (Some i_hi) = visible_values t val range.
Proof.
  intros Ht Hlen Hlo Hhi. destruct range as [t_lo t_hi].
  pose proof (visible_indices_bracket t t_lo t_hi Ht Hlo Hhi) as Hb.
  destruct (visible_indices t (t_lo, t_hi)) as [i_lo i_hi].
  destruct Hb as (Hi_lo & Hi_hi & Hsel).
  split; [done|]. split; [done|].
  rewrite np.slice_between by lia.
  unfold visible_values.
  rewrite (filter_interval _ (zip t val) (Z.to_nat i_lo) (Z.to_nat i_hi)).
  - rewrite fmap_take, fmap_drop, snd_zip by lia. f_equal. lia.
  - intros j [x y] Hj. apply lookup_zip_with_Some in Hj
      as (x' & y' & [= -> ->] & Hx & Hy).
    destruct (Hsel j x' Hx) as (_ & _ & Hwin).
    unfold in_window. simpl. rewrite andb_true_iff, <- Hwin. lia.
Qed.

Lemma visible_values_not_nan (t val : np.ndarray) (range : float * float) :
  Forall (fun y => is_nan y = false) val ->
  Forall (fun y => is_nan y = false) (visible_values t val range).
Proof.
  intros Hval. unfold visible_values. rewrite Forall_forall in Hval.
  apply Forall_forall. intros y Hy.
  apply list_elem_of_fmap in Hy as ([x y'] & -> & Hin).
  apply list_elem_of_filter in Hin as [_ Hin].
  apply elem_of_zip_r in Hin. by apply Hval.
Qed.


(** What one line does to the accumulator, sorted array or not: it takes
    in the values between the two indices, all of them and no other. *)
Lemma refresh_line_slice (t val : np.ndarray) (range : float * float)
    (acc : bounds) :
  length val = length t ->
  refresh_line t val (Some range) acc
  = inr (match np.slice val (Some (visible_indices t range).1)
                 (Some (visible_indices t range).2) with
         | [] => acc
         | x :: rest =>
           Bounds (py_min (y_lo acc) (foldl np.minimum x rest))
                  (py_max (y_hi acc) (foldl np.maximum x rest)) true
         end).
Proof.
  intros Hlen. unfold refresh_line, visible_indices. cbn [fst snd].
  pose proof (np.searchsorted_range t range.1 np.left) as Hlo.
  pose proof (np.searchsorted_range t range.2 np.right) as Hhi.
  set (i_lo := np.searchsorted t range.1 np.left) in *.
  set (i_hi := np.searchsorted t range.2 np.right) in *.
  pose proof (np.slice_between val i_lo i_hi) as Hslice.
  rewrite Hlen in Hslice. specialize (Hslice ltac:(lia) ltac:(lia)).
  assert (Hempty : i_hi <= i_lo -> np.slice val (Some i_lo) (Some i_hi) = []).
  { intros Hle. rewrite Hslice.
    replace (Z.to_nat (i_hi - i_lo)) with 0%nat by lia. apply take_0. }
  destruct (Z.ltb_spec 0 (Z.of_nat (length t))) as [Hpos|Hzero];
    [|by rewrite Hempty by lia].
  destruct (Z.ltb_spec i_lo i_hi) as [Hlt|Hge]; [|by rewrite Hempty by lia].
  destruct (np.slice val (Some i_lo) (Some i_hi)) as [|x rest]; [|done].
  exfalso. apply (f_equal length) in Hslice.
  rewrite length_take, length_drop in Hslice. simpl in Hslice. lia.
Qed.

Lemma py_min_tracks (y_lo lo : float) (seen vis : list float) :
  (seen = [] /\ y_lo = infinity) \/ is_min y_lo seen ->
  is_min lo vis -> is_min (py_min y_lo lo) (seen ++ vis).
Proof.
  intros Hseen [Hin Hle]. unfold py_min.
  assert (Hlo : is_nan lo = false) by (apply (F64.leb_not_nan lo lo); auto).
  destruct (lo <? y_lo)%float eqn:E.
  - split; [set_solver|]. intros x [Hx|Hx]%elem_of_app; [|auto].
    destruct Hseen as [[-> _]|[_ Hle']]; [set_solver|].
    apply F64.ltb_leb, (F64.ltb_leb_trans lo y_lo x); auto.
  - destruct Hseen as [[-> ->]|[Hin' Hle']].
    + rewrite <- (F64.not_ltb_infinity lo Hlo E). done.
    + split; [set_solver|]. intros x [Hx|Hx]%elem_of_app; [auto|].
      assert (Hy : is_nan y_lo = false)
        by (apply (F64.leb_not_nan y_lo y_lo); auto).
      rewrite F64.ltb_negb_leb in E by done.
      apply (F64.leb_trans y_lo lo x); [by destruct (y_lo <=? lo)%float|auto].
Qed.

Lemma py_max_tracks (y_hi hi : float) (seen vis : list float) :
  (seen = [] /\ y_hi = neg_infinity) \/ LiveDataStore.is_max y_hi seen ->
  LiveDataStore.is_max hi vis ->
  LiveDataStore.is_max (py_max y_hi hi) (seen ++ vis).
Proof.
  intros Hseen [Hin Hle]. unfold py_max.
  assert (Hhi : is_nan hi = false) by (apply (F64.leb_not_nan hi hi); auto).
  destruct (y_hi <? hi)%float eqn:E.
  - split; [set_solver|]. intros x [Hx|Hx]%elem_of_app; [|auto].
    destruct Hseen as [[-> _]|[_ Hle']]; [set_solver|].
    apply F64.ltb_leb, (F64.leb_ltb_trans x y_hi hi); auto.
  - destruct Hseen as [[-> ->]|[Hin' Hle']].
    + rewrite <- (F64.not_neg_infinity_ltb hi Hhi E). done.
    + split; [set_solver|]. intros x [Hx|Hx]%elem_of_app; [auto|].
      assert (Hy : is_nan y_hi = false)
        by (apply (F64.leb_not_nan y_hi y_hi); auto).
      rewrite F64.ltb_negb_leb in E by done.
      apply (F64.leb_trans x hi y_hi); [auto|by destruct (hi <=? y_hi)%float].
Qed.

(** One line: the accumulator takes in the line's values inside the
    window. *)
Lemma refresh_line_tracks (t val : np.ndarray) (range : float * float)
    (acc : bounds) (seen : list float) :
  plottable t val -> is_nan range.1 = false -> is_nan range.2 = false ->
  tracks acc seen ->
  exists acc',
    refresh_line t val (Some range) acc = inr acc' /\
    tracks acc' (seen ++ visible_values t val range).
Proof.
  intros (Ht & Hlen & Hval) Hlo Hhi Hacc.
  pose proof (slice_visible t val range Ht Hlen Hlo Hhi) as Hs.
  pose proof (visible_values_not_nan t val range Hval) as Hnn.
  unfold refresh_line.
  destruct (visible_indices t range) as [i_lo i_hi].
  destruct Hs as (Hi_lo & Hi_hi & Hslice).
  assert (Hempty : i_hi <= i_lo -> visible_values t val range = []).
  { intros Hle. rewrite <- Hslice, np.slice_between by lia.
    replace (Z.to_nat (i_hi - i_lo)) with 0%nat by lia. apply take_0. }
  destruct (Z.ltb_spec 0 (Z.of_nat (length t))) as [Hpos|Hzero].
  2:{ exists acc. split; [done|]. rewrite Hempty, app_nil_r by lia. done. }
  destruct (Z.ltb_spec i_lo i_hi) as [Hlt|Hge].
  2:{ exists acc. split; [done|]. rewrite Hempty, app_nil_r by lia. done. }
  rewrite Hslice.
  destruct (visible_values t val range) as [|v vis] eqn:Evis.
  { rewrite np.slice_between in Hslice by lia.
    apply (f_equal length) in Hslice.
    rewrite length_take, length_drop in Hslice. simpl in Hslice. lia. }
  apply Forall_cons in Hnn as [Hv Hvis].
  destruct (np.foldl_minimum_spec v vis Hv Hvis) as [Hmin_in Hmin_le].
  destruct (np.foldl_maximum_spec v vis Hv Hvis) as [Hmax_in Hmax_le].
  eexists. split; [reflexivity|].
  unfold tracks in *. cbn [has_data y_lo y_hi].
  destruct (has_data acc).
  - destruct Hacc as [Hmin Hmax].
    split; [apply py_min_tracks|apply py_max_tracks]; try (by right); done.
  - destruct Hacc as (-> & -> & ->).
    split; [apply py_min_tracks|apply py_max_tracks]; try (by left); done.
Qed.


Section WithMemory.

Variable uninit : nat -> float.

(** The values a block shows inside the window: those of its visible
    signals that have data, line after line. *)
Definition shown (data_store : LiveDataStore.t)
    (visible_signals : list string) (range : float * float) : list float :=
  visible_signals ≫= fun sig_name =>
    match LiveDataStore.get_arrays uninit sig_name data_store with
    | inr (Some (t, val)) => visible_values t val range
    | _ => []
    end.

(** Every visible signal of the block can be plotted. *)
Definition block_plottable (data_store : LiveDataStore.t)
    (visible_signals : list string) : Prop :=
  forall sig_name, sig_name ∈ visible_signals ->
    match LiveDataStore.get_arrays uninit sig_name data_store with
    | inr (Some (t, val)) => plottable t val
    | inr None => True
    | inl _ => False
    end.

Lemma refresh_lines_tracks (data_store : LiveDataStore.t)
    (visible_signals : list string) (range : float * float)
    (acc : bounds) (seen : list float) :
  block_plottable data_store visible_signals ->
  is_nan range.1 = false -> is_nan range.2 = false ->
  tracks acc seen ->
  exists acc',
    refresh_lines uninit data_store visible_signals (Some range) acc
    = inr acc' /\
    tracks acc' (seen ++ shown data_store visible_signals range).
Proof.
  intros Hblock Hlo Hhi. revert acc seen.
  induction visible_signals as [|sig_name rest IH]; intros acc seen Hacc.
  - exists acc. split; [done|]. unfold shown. simpl. by rewrite app_nil_r.
  - pose proof (Hblock sig_name (list_elem_of_here _ _)) as Hsig.
    assert (Hrest : block_plottable data_store rest)
      by (intros n Hn; apply Hblock; by right).
    unfold shown. cbn [refresh_lines mbind list_bind]. fold (shown data_store rest range).
    destruct (LiveDataStore.get_arrays uninit sig_name data_store)
      as [e|[[t val]|]]; [done| |].
    + destruct (refresh_line_tracks t val range acc seen Hsig Hlo Hhi Hacc)
        as (acc1 & Hline & Hacc1).
      destruct (IH Hrest acc1 _ Hacc1) as (acc' & Hrun & Hacc').
      exists acc'. cbn -[refresh_line refresh_lines]. rewrite Hline.
      cbn -[refresh_line refresh_lines]. rewrite Hrun.
      split; [done|]. by rewrite app_assoc.
    + destruct (IH Hrest acc seen Hacc) as (acc' & Hrun & Hacc').
      exists acc'. cbn -[refresh_line refresh_lines]. by rewrite Hrun.
Qed.

(** In position-offset mode [refresh_plots] returns the least and the
    greatest of the values the block shows inside the window, and [None]
    when it shows none. *)
Theorem refresh_plots_bounds (data_store : LiveDataStore.t)
    (visible_signals : list string) (range : float * float) :
  block_plottable data_store visible_signals ->
  is_nan range.1 = false -> is_nan range.2 = false ->
  match shown data_store visible_signals range with
  | [] =>
    refresh_plots uninit data_store visible_signals (Some range) = inr None
  | seen =>
    exists lo hi,
      refresh_plots uninit data_store visible_signals (Some range)
      = inr (Some (lo, hi)) /\
      is_min lo seen /\ LiveDataStore.is_max hi seen
  end.
Proof.
  intros Hblock Hlo Hhi.
  destruct (refresh_lines_tracks data_store visible_signals range
              (Bounds infinity neg_infinity false) [] Hblock Hlo Hhi)
    as (acc & Hrun & Hacc); [done|].
  unfold refresh_plots. rewrite Hrun. cbn. rewrite app_nil_l in Hacc.
  unfold tracks in Hacc. destruct (has_data acc).
  - destruct Hacc as [Hmin Hmax].
    destruct (shown data_store visible_signals range) as [|v seen] eqn:E.
    + destruct Hmin as [Hin _]. by apply elem_of_nil in Hin.
    + by exists (y_lo acc), (y_hi acc).
  - destruct Hacc as (-> & _). done.
Qed.

(** A block with one visible signal. *)
Lemma refresh_plots_one (data_store : LiveDataStore.t) (sig_name : string)
    (t val : np.ndarray) (range : float * float) :
  LiveDataStore.get_arrays uninit sig_name data_store = inr (Some (t, val)) ->
  length val = length t ->
  refresh_plots uninit data_store [sig_name] (Some range)
  = inr (match np.slice val (Some (visible_indices t range).1)
                 (Some (visible_indices t range).2) with
         | [] => None
         | x :: rest =>
           Some (py_min infinity (foldl np.minimum x rest),
                 py_max neg_infinity (foldl np.maximum x rest))
         end).
Proof.
  intros Hget Hlen.
  pose proof (refresh_line_slice t val range
                (Bounds infinity neg_infinity false) Hlen) as Hline.
  set (vis := np.slice val _ _) in *. clearbody vis.
  unfold refresh_plots. cbn [refresh_lines].
  rewrite Hget. cbn -[refresh_line]. rewrite Hline. cbn.
  by destruct vis.
Qed.

(** Every visible signal of the block has ascending times, as many values
    as times, and finite values only. *)
Definition block_finite (data_store : LiveDataStore.t)
    (visible_signals : list string) : Prop :=
  forall sig_name, sig_name ∈ visible_signals ->
    match LiveDataStore.get_arrays uninit sig_name data_store with
    | inr (Some (t, val)) =>
      np.ascending t = true /\ length val = length t /\
      Forall (fun y => is_finite y = true) val
    | inr None => True
    | inl _ => False
    end.

Lemma block_finite_plottable (data_store : LiveDataStore.t)
    (visible_signals : list string) :
  block_finite data_store visible_signals ->
  block_plottable data_store visible_signals.
Proof.
  intros Hfin sig_name Hsig. specialize (Hfin sig_name Hsig).
  destruct (LiveDataStore.get_arrays uninit sig_name data_store)
    as [e|[[t val]|]]; [done| |done].
  destruct Hfin as (Ht & Hlen & Hval). split; [done|]. split; [done|].
  eapply Forall_impl; [exact Hval|]. intros y. apply F64.finite_not_nan.
Qed.






End WithMemory.
End FigureBlock.

(** ** [main_window.MainWindow._on_refresh_tick] *)

Module MainWindow.

(** The calls a tick makes on the plot of one block, in the order it makes
    them: [block.shift_curves(t_min)] and
    [vb.setYRange(y_min, y_max, padding=Y_RANGE_PADDING)]. Drawing is
    pyqtgraph's part: what the library does with a call, such as refusing
    a range that is not finite, is outside this model. *)
Inductive call : Type :=
  | shift_curves (x_offset : float)
  | setYRange (y_min y_max padding : float).

(** The window of a tick: [(t_min, t_min + window_sec)] in position-offset
    mode, [None] otherwise. *)
Definition visible_t_range (auto_scroll : bool) (window_key : string)
    (data_store : LiveDataStore.t) : pyexn + option (float * float) :=
  let window_sec := default None (constants.TIME_WINDOWS !! window_key) in
  match window_sec with
  | Some window_sec =>
    if auto_scroll then
      match LiveDataStore.get_latest_timestamp data_store with
      | Some t_max =>
        w ← float_of_int window_sec;
        let t_min := py_max 0 (t_max - w) in
        inr (Some (t_min, (t_min + w)%float))
      | None => inr None
      end
    else inr None
  | None => inr None
  end.

Section WithMemory.

Variable uninit : nat -> float.

(** The tick, block after block: the calls it makes on each block. *)
Definition _on_refresh_tick (auto_scroll : bool) (window_key : string)
    (data_store : LiveDataStore.t) (figure_blocks : list (list string))
  : pyexn + list (list call) :=
  range ← visible_t_range auto_scroll window_key data_store;
  mapM (fun block : list string =>
          match range with
          | Some (t_min, t_end) =>
            (* block.shift_curves(t_min) comes first *)
            y_range ← FigureBlock.refresh_plots uninit data_store block
                        (Some (t_min, t_end));
            inr (shift_curves t_min ::
                 match y_range with
                 | Some (y_min, y_max) =>
                   [setYRange y_min y_max constants.Y_RANGE_PADDING]
                 | None => []
                 end)
          | None =>
            _ ← FigureBlock.refresh_plots uninit data_store block None;
            inr []
          end) figure_blocks.

End WithMemory.

(** The calls on a block in position-offset mode. *)
Definition block_calls (t_min : float) (y_range : option (float * float))
  : list call :=
  shift_curves t_min ::
  match y_range with
  | Some (y_min, y_max) => [setYRange y_min y_max constants.Y_RANGE_PADDING]
  | None => []
  end.

(** *** The fixed window *)

Lemma TIME_WINDOWS_finite (window_key : string) (window_sec : Z) :
  constants.TIME_WINDOWS !! window_key = Some (Some window_sec) ->
  exists w, float_of_int window_sec = inr w /\ is_finite w = true.
Proof.
  unfold constants.TIME_WINDOWS.
  rewrite !list_to_map_cons, list_to_map_nil. simpl fst. simpl snd.
  repeat (rewrite lookup_insert; case_decide;
          [intros [= <-]; eexists; split; reflexivity|]).
  rewrite lookup_empty. done.
Qed.

(** C2. In fixed-window mode the tick asks for the window
    [[t_min, t_min + w]] with [t_min = max(0, t_max - w)], and on an
    ascending time array the two searches bracket exactly the samples inside
    it: every index from [i_lo] on has a time [>= t_min] and none before,
    every index from [i_hi] on has a time [> t_min + w] and none before.
    The refresh takes in the values [val[i_lo:i_hi]], which are the values
    at the times inside the window, all of them and no other: the
    accumulator of [refresh_plots] is updated with their minimum and maximum
    and left alone when there are none, and the tick on a block that shows
    the signal shifts the block by [t_min] and sets the value range from
    these values. *)
Theorem fixed_window_selects
    (uninit : nat -> float) (t : np.ndarray) (data_store : LiveDataStore.t)
    (t_max : float) (window_key : string) (window_sec : Z) :
  np.ascending t = true ->
  constants.TIME_WINDOWS !! window_key = Some (Some window_sec) ->
  LiveDataStore.get_latest_timestamp data_store = Some t_max ->
  exists w,
    float_of_int window_sec = inr w /\
    let t_min := py_max 0 (t_max - w) in
    let t_end := (t_min + w)%float in
    visible_t_range true window_key data_store = inr (Some (t_min, t_end)) /\
    let '(i_lo, i_hi) := FigureBlock.visible_indices t (t_min, t_end) in
    0 <= i_lo <= Z.of_nat (length t) /\
    0 <= i_hi <= Z.of_nat (length t) /\
    (forall (j : nat) (x : float), t !! j = Some x ->
      (i_lo <= Z.of_nat j <-> (t_min <=? x)%float = true) /\
      (i_hi <= Z.of_nat j <-> (t_end <? x)%float = true) /\
      (i_lo <= Z.of_nat j < i_hi <->
       (t_min <=? x)%float = true /\ (x <=? t_end)%float = true)) /\
    forall val : np.ndarray, length val = length t ->
      let vis := np.slice val (Some i_lo) (Some i_hi) in
      vis = FigureBlock.visible_values t val (t_min, t_end) /\
      (forall acc : FigureBlock.bounds,
         FigureBlock.refresh_line t val (Some (t_min, t_end)) acc
         = inr (match vis with
                | [] => acc
                | x :: rest =>
                  FigureBlock.Bounds
                    (py_min (FigureBlock.y_lo acc) (foldl np.minimum x rest))
                    (py_max (FigureBlock.y_hi acc) (foldl np.maximum x rest))
                    true
                end)) /\
      forall sig_name : string,
        LiveDataStore.get_arrays uninit sig_name data_store
        = inr (Some (t, val)) ->
        _on_refresh_tick uninit true window_key data_store [[sig_name]]
        = inr [block_calls t_min
                 match vis with
                 | [] => None
                 | x :: rest =>
                   Some (py_min infinity (foldl np.minimum x rest),
                         py_max neg_infinity (foldl np.maximum x rest))
                 end].
Proof.
  intros Ht Hkey Hlatest.
  destruct (TIME_WINDOWS_finite window_key window_sec Hkey) as (w & Hw & Hfin).
  exists w. split; [done|]. cbv zeta.
  set (t_min := py_max 0 (t_max - w)).
  set (t_end := (t_min + w)%float).
  assert (Hmin : is_nan t_min = false) by apply py_max_zero_not_nan.
  assert (Hend : is_nan t_end = false) by by apply F64.add_not_nan.
  assert (Hrange : visible_t_range true window_key data_store
                   = inr (Some (t_min, t_end))).
  { unfold visible_t_range. rewrite Hkey, Hlatest. simpl. rewrite Hw. done. }
  clearbody t_end. clearbody t_min.
  split; [done|].
  pose proof (FigureBlock.visible_indices_bracket t t_min t_end Ht Hmin Hend)
    as Hbracket.
  assert (Hvalues : forall val : np.ndarray, length val = length t ->
    np.slice val (Some (FigureBlock.visible_indices t (t_min, t_end)).1)
                 (Some (FigureBlock.visible_indices t (t_min, t_end)).2)
    = FigureBlock.visible_values t val (t_min, t_end)).
  { intros val Hlen.
    pose proof (FigureBlock.slice_visible t val (t_min, t_end) Ht Hlen
                  Hmin Hend) as Hs.
    destruct (FigureBlock.visible_indices t (t_min, t_end)). apply Hs. }
  pose proof (fun val acc =>
    FigureBlock.refresh_line_slice t val (t_min, t_end) acc) as Hline.
  pose proof (fun sig_name val =>
    FigureBlock.refresh_plots_one uninit data_store sig_name t val
      (t_min, t_end)) as Hplots.
  destruct (FigureBlock.visible_indices t (t_min, t_end)) as [i_lo i_hi].
  destruct Hbracket as (Hlo & Hhi & Hsel). cbn [fst snd] in *.
  split; [done|]. split; [done|]. split; [done|].
  intros val Hlen. split; [by apply Hvalues|]. split; [by intros; apply Hline|].
  intros sig_name Hget. unfold _on_refresh_tick. rewrite Hrange.
  cbn -[FigureBlock.refresh_plots np.slice].
  rewrite (Hplots sig_name val Hget Hlen). done.
Qed.

(** Samples at [t = 0, 1, ..., 99], as one signal received them. *)
Fixpoint count_up (n : nat) (x : float) : list float :=
  match n with
  | O => []
  | S n => x :: count_up n (x + 1)%float
  end.

Definition ramp : np.ndarray := count_up 100 0%float.

Definition ramp_store : LiveDataStore.t :=
  state_of
    (LiveDataStore.appends CircularBuffer.nan_memory
       ((fun x => ("speed", (1000 + x)%float, x)) <$> ramp)
       (LiveDataStore.init 128)).

Example ramp_tick :
  LiveDataStore.get_arrays CircularBuffer.nan_memory "speed" ramp_store
  = inr (Some (ramp, ramp)) /\
  _on_refresh_tick CircularBuffer.nan_memory true "win_10s" ramp_store
    [["speed"]]
  = inr [[shift_curves 89; setYRange 89 99 constants.Y_RANGE_PADDING]] /\
  _on_refresh_tick CircularBuffer.nan_memory true "win_all" ramp_store
    [["speed"]]
  = inr [[]].
Proof. vm_compute. repeat split. Qed.

(** A value that is not a number reaches [setYRange] as the range
    [(inf, -inf)]. *)
Example nan_value_range :
  _on_refresh_tick CircularBuffer.nan_memory true "win_10s"
    (state_of
       (LiveDataStore.appends CircularBuffer.nan_memory
          [("speed", 1000%float, nan)] (LiveDataStore.init 4)))
    [["speed"]]
  = inr [[shift_curves 0;
          setYRange infinity neg_infinity constants.Y_RANGE_PADDING]].
Proof. vm_compute. reflexivity. Qed.

Lemma fixed_window_selects_witness :
  visible_t_range true "win_10s" ramp_store = inr (Some (89, 99)%float) /\
  FigureBlock.visible_indices ramp (89, 99)%float = (89, 100) /\
  np.slice ramp (Some 89) (Some 100)
  = [89; 90; 91; 92; 93; 94; 95; 96; 97; 98; 99]%float /\
  (forall (j : nat) (x : float), ramp !! j = Some x ->
    (89 <= Z.of_nat j < 100 <->
     (89 <=? x)%float = true /\ (x <=? 99)%float = true)) /\
  FigureBlock.visible_values ramp ramp (89, 99)%float
  = [89; 90; 91; 92; 93; 94; 95; 96; 97; 98; 99]%float /\
  FigureBlock.refresh_line ramp ramp (Some (89, 99)%float)
    (FigureBlock.Bounds infinity neg_infinity false)
  = inr (FigureBlock.Bounds 89 99 true) /\
  _on_refresh_tick CircularBuffer.nan_memory true "win_10s" ramp_store
    [["speed"]]
  = inr [[shift_curves 89; setYRange 89 99 constants.Y_RANGE_PADDING]].
Proof.
  destruct (fixed_window_selects CircularBuffer.nan_memory ramp ramp_store 99
              "win_10s" 10)
    as (w & Hw & Hrange & Hlo & Hhi & Hsel & Hval);
    [vm_compute; reflexivity | reflexivity | vm_compute; reflexivity |].
  injection Hw as <-.
  destruct (Hval ramp eq_refl) as (Hvis & Hline & Htick).
  split; [exact Hrange|].
  split; [vm_compute; reflexivity|].
  split; [vm_compute; reflexivity|].
  split; [intros j x Hj; apply (Hsel j x Hj)|].
  split; [refine (eq_trans (eq_sym Hvis) _); vm_compute; reflexivity|].
  split.
  - refine (eq_trans
              (Hline (FigureBlock.Bounds infinity neg_infinity false)) _).
    vm_compute. reflexivity.
  - refine (eq_trans (Htick "speed" (proj1 ramp_tick)) _).
    vm_compute. reflexivity.
Defined.

(** *** What a tick hands to the plots *)

Section MoreTicks.

Variable uninit : nat -> float.





End MoreTicks.


Lemma ramp_store_finite :
  FigureBlock.block_finite CircularBuffer.nan_memory ramp_store ["speed"].
Proof.
  intros name Hname. apply list_elem_of_singleton in Hname as ->.
  rewrite (proj1 ramp_tick).
  split; [vm_compute; reflexivity|]. split; [reflexivity|].
  repeat constructor.
Qed.

Lemma ramp_store_plottable :
  FigureBlock.block_plottable CircularBuffer.nan_memory ramp_store ["speed"].
Proof. apply FigureBlock.block_finite_plottable, ramp_store_finite. Qed.

Lemma refresh_plots_bounds_witness :
  exists lo hi,
    FigureBlock.refresh_plots CircularBuffer.nan_memory ramp_store ["speed"]
      (Some (89, 99)%float)
    = inr (Some (lo, hi)) /\
    FigureBlock.is_min lo [89; 90; 91; 92; 93; 94; 95; 96; 97; 98; 99]%float /\
    LiveDataStore.is_max hi
      [89; 90; 91; 92; 93; 94; 95; 96; 97; 98; 99]%float.
Proof.
  pose proof (FigureBlock.refresh_plots_bounds CircularBuffer.nan_memory
                ramp_store ["speed"] (89, 99)%float ramp_store_plottable
                eq_refl eq_refl) as H.
  assert (Hs : FigureBlock.shown CircularBuffer.nan_memory ramp_store
                 ["speed"] (89, 99)%float
               = [89; 90; 91; 92; 93; 94; 95; 96; 97; 98; 99]%float)
    by (vm_compute; reflexivity).
  rewrite Hs in H. exact H.
Defined.


End MainWindow.

(** ** [decode.DecoderListener] *)

Module DecoderListener.

(** A decoded signal value as the database hands it out: with
    [decode_choices=False] a number, or any other object, which [float()]
    refuses. *)
Inductive pyvalue : Type :=
  | PyFloat (f : float)
  | PyInt (n : Z)
  | PyOther.

(** [float(value)] *)
Definition py_float (value : pyvalue) : pyexn + float :=
  match value with
  | PyFloat f => inr f
  | PyInt n => float_of_int n
  | PyOther => inl TypeError
  end.

(** [can.Message], as far as the handler reads it. *)
Record Message : Type := {
  arbitration_id : Z;
  data : list Z;
  timestamp : float
}.

(** The schema, an external collaborator. [get_message_by_frame_id] raises
    [KeyError] for an id it does not know ([None] here); [decode] returns the
    signals of a payload in the order of the message definition, or
    raises. *)
Record DbMessage : Type := {
  decode : list Z -> pyexn + list (string * pyvalue)
}.

Record Database : Type := {
  get_message_by_frame_id : Z -> option DbMessage
}.

(** What the handler lets the outside see: log records and calls of the
    new-signals callback. *)
Inductive event : Type :=
  | log_cannot_decode (arb_id : Z)               (* logger.info *)
  | log_error_decoding (arb_id : Z) (e : pyexn)  (* logger.exception *)
  | new_signals (names : list string).           (* the callback is called *)

(** The mutable part of a listener: the store it writes to, its two sets,
    and the events so far, oldest first. [_db] and [_new_signals_callback]
    never change and are arguments of the handler. *)
Record t : Type := Build {
  _data_store : LiveDataStore.t;
  _no_decode : gset Z;
  _known_signals : gset string;
  events : list event
}.

Definition set_data_store (s : LiveDataStore.t) (self : t) : t :=
  Build s (_no_decode self) (_known_signals self) (events self).
Definition set_no_decode (s : gset Z) (self : t) : t :=
  Build (_data_store self) s (_known_signals self) (events self).
Definition set_known_signals (s : gset string) (self : t) : t :=
  Build (_data_store self) (_no_decode self) s (events self).
Definition emit (ev : event) : Py t unit :=
  update (fun self =>
    Build (_data_store self) (_no_decode self) (_known_signals self)
          (events self ++ [ev])).

(** [__init__] *)
Definition init (data_store : LiveDataStore.t) : t :=
  Build data_store ∅ ∅ [].

Definition callback : Type := list string -> pyexn + unit.

(** The discovery notifications among the events. *)
Definition notifications (self : t) : list (list string) :=
  omap (fun ev => match ev with new_signals names => Some names | _ => None end)
       (events self).

(** The unresolved-frame records for one id. *)
Definition is_unresolved_record (arb_id : Z) (ev : event) : bool :=
  match ev with
  | log_cannot_decode a => bool_decide (a = arb_id)
  | _ => false
  end.

Definition unresolved_records (arb_id : Z) (self : t) : nat :=
  length (filter (fun ev => is_unresolved_record arb_id ev = true)
                 (events self)).

Section WithMemory.

Variable uninit : nat -> float.

Local Open Scope py_scope.

(** The [for] loop over [signals.items()]. *)
Fixpoint each_signal (msg : Message) (signals : list (string * pyvalue))
    (newly_discovered : list string) : Py t (list string) :=
  match signals with
  | [] => py_ret newly_discovered
  | (signal_name, value) :: rest =>
    v <~ eval (py_float value);
    within _data_store set_data_store
      (LiveDataStore.append uninit signal_name (timestamp msg) v);;
    known <~ read _known_signals;
    newly_discovered <~
      (if decide (signal_name ∈ known) then py_ret newly_discovered
       else update (set_known_signals ({[signal_name]} ∪ known));;
            py_ret (newly_discovered ++ [signal_name]));
    each_signal msg rest newly_discovered
  end.

Definition on_message_received (db : Database)
    (new_signals_callback : option callback) (msg : Message) : Py t unit :=
  no_decode <~ read _no_decode;
  if decide (arbitration_id msg ∈ no_decode) then py_ret tt
  else
    try_except
      (db_message <~
         eval (match get_message_by_frame_id db (arbitration_id msg) with
               | Some m => inr m
               | None => inl KeyError
               end);
       signals <~ eval (decode db_message (data msg));
       newly_discovered <~ each_signal msg signals [];
       match newly_discovered, new_signals_callback with
       | _ :: _, Some call =>
         emit (new_signals newly_discovered);; eval (call newly_discovered)
       | _, _ => py_ret tt
       end)
      (fun e =>
         match e with
         | KeyError =>
           emit (log_cannot_decode (arbitration_id msg));;
           update (fun self =>
             set_no_decode ({[arbitration_id msg]} ∪ _no_decode self) self)
         | _ => emit (log_error_decoding (arbitration_id msg) e)
         end).

(** The Notifier thread hands the frames over one at a time. *)
Fixpoint deliver (db : Database) (new_signals_callback : option callback)
    (msgs : list Message) : Py t unit :=
  match msgs with
  | [] => py_ret tt
  | msg :: rest =>
    on_message_received db new_signals_callback msg;;
    deliver db new_signals_callback rest
  end.

(** *** The loop over the signals of a frame *)

(** The names a frame shows for the first time, in the order of the
    frame. *)
Fixpoint first_seen (known : gset string) (names : list string)
  : list string :=
  match names with
  | [] => []
  | name :: rest =>
    if decide (name ∈ known) then first_seen known rest
    else name :: first_seen ({[name]} ∪ known) rest
  end.

Lemma filter_agree {A} (P Q : A -> Prop) `{forall x, Decision (P x)}
    `{forall x, Decision (Q x)} (l : list A) :
  (forall x, x ∈ l -> P x <-> Q x) -> filter P l = filter Q l.
Proof.
  induction l as [|x l IH]; intros HPQ; [done|].
  rewrite !filter_cons.
  rewrite IH by (intros y Hy; apply HPQ; by right).
  assert (P x <-> Q x) as Hx by (apply HPQ; by left).
  repeat case_decide; tauto.
Qed.

(** The keys of a dictionary are distinct: the new names are then simply
    the names of the frame that were not known. *)
Lemma first_seen_NoDup (known : gset string) (names : list string) :
  NoDup names -> first_seen known names = filter (fun n => n ∉ known) names.
Proof.
  revert known. induction names as [|name rest IH]; intros known Hnd; [done|].
  apply NoDup_cons in Hnd as [Hname Hrest].
  simpl. rewrite filter_cons.
  destruct (decide (name ∈ known)) as [Hin|Hout].
  - rewrite decide_False by tauto. by apply IH.
  - rewrite decide_True by done. f_equal.
    rewrite IH by done. apply filter_agree.
    intros x Hx. set_solver.
Qed.

Lemma first_seen_fresh (known : gset string) (names : list string) :
  Forall (fun n => n ∉ known) (first_seen known names).
Proof.
  revert known. induction names as [|name rest IH]; intros known; simpl;
    [constructor|].
  destruct (decide (name ∈ known)); [apply IH|].
  constructor; [done|].
  eapply Forall_impl; [apply IH|]. set_solver.
Qed.

Lemma first_seen_known (known : gset string) (names : list string) :
  Forall (fun n => n ∈ names) (first_seen known names).
Proof.
  revert known. induction names as [|name rest IH]; intros known; simpl;
    [constructor|].
  destruct (decide (name ∈ known)).
  - eapply Forall_impl; [apply IH|]. set_solver.
  - constructor; [set_solver|].
    eapply Forall_impl; [apply IH|]. set_solver.
Qed.

(** One turn of the loop. *)
Lemma each_signal_cons (msg : Message) (signal_name : string)
    (value : pyvalue) (rest : list (string * pyvalue))
    (newly : list string) (self : t) :
  each_signal msg ((signal_name, value) :: rest) newly self
  = match py_float value with
    | inl e => (inl e, self)
    | inr v =>
      match LiveDataStore.append uninit signal_name (timestamp msg) v
              (_data_store self) with
      | (inl e, store) => (inl e, set_data_store store self)
      | (inr _, store) =>
        if decide (signal_name ∈ _known_signals self)
        then each_signal msg rest newly (set_data_store store self)
        else each_signal msg rest (newly ++ [signal_name])
               (set_known_signals ({[signal_name]} ∪ _known_signals self)
                  (set_data_store store self))
      end
    end.
Proof.
  cbn [each_signal]. unfold py_bind, eval, within, read, update, py_ret.
  destruct (py_float value) as [e|v]; [done|].
  destruct (LiveDataStore.append _ _ _ _ _) as [[e|[]] store]; [done|].
  cbn [_known_signals set_data_store].
  destruct (decide (signal_name ∈ _known_signals self)); done.
Qed.

(** Signals whose values [float()] accepted. *)
Definition converted (pre : list (string * pyvalue))
    (done : list (string * float)) : Prop :=
  Forall2 (fun sv nf => sv.1 = nf.1 /\ py_float sv.2 = inr nf.2) pre done.

Definition samples (msg : Message) (done : list (string * float))
  : list LiveDataStore.sample :=
  (fun nf => (nf.1, timestamp msg, nf.2)) <$> done.

(** What the loop has done when it ends, normally or not: it went through
    a prefix [pre] of the signals, appended their samples and recorded
    their names; it raised at the next signal, if any. *)
Lemma each_signal_effect (msg : Message) (signals : list (string * pyvalue))
    (newly : list string) (self : t) :
  let r := each_signal msg signals newly self in
  events (state_of r) = events self /\
  _no_decode (state_of r) = _no_decode self /\
  exists pre post done store_pre,
    signals = pre ++ post /\
    converted pre done /\
    LiveDataStore.appends uninit (samples msg done) (_data_store self)
    = (inr tt, store_pre) /\
    _known_signals (state_of r)
    = _known_signals self ∪ list_to_set pre.*1 /\
    match result_of r with
    | inr out =>
      post = [] /\
      out = newly ++ first_seen (_known_signals self) pre.*1 /\
      _data_store (state_of r) = store_pre
    | inl e =>
      exists bad rest,
        post = bad :: rest /\
        ((py_float bad.2 = inl e /\ _data_store (state_of r) = store_pre) \/
         exists v,
           py_float bad.2 = inr v /\
           LiveDataStore.append uninit bad.1 (timestamp msg) v store_pre
           = (inl e, _data_store (state_of r)))
    end.
Proof.
  revert newly self.
  induction signals as [|[name value] rest IH]; intros newly self.
  - simpl. split; [done|]. split; [done|].
    exists [], [], [], (_data_store self).
    repeat split; try done; try constructor.
    + simpl. set_solver.
    + by rewrite app_nil_r.
  - cbv zeta. rewrite each_signal_cons.
    destruct (py_float value) as [e|v] eqn:Ev.
    { split; [done|]. split; [done|].
      exists [], ((name, value) :: rest), [], (_data_store self).
      repeat split; try done; try constructor.
      - simpl. set_solver.
      - exists (name, value), rest. split; [done|]. by left. }
    destruct (LiveDataStore.append _ _ _ _ _) as [[e|[]] store] eqn:Ea.
    { split; [done|]. split; [done|].
      exists [], ((name, value) :: rest), [], (_data_store self).
      repeat split; try done; try constructor.
      - simpl. set_solver.
      - exists (name, value), rest. split; [done|]. right. by exists v. }
    set (self1 := set_data_store store self).
    destruct (decide (name ∈ _known_signals self)) as [Hin|Hout].
    + destruct (IH newly self1)
        as (Hev & Hnd & pre & post & done & store_pre & -> & Hconv & Happ
            & Hknown & Hres).
      split; [done|]. split; [done|].
      exists ((name, value) :: pre), post, ((name, v) :: done), store_pre.
      split; [done|]. split; [by constructor|]. split.
      { simpl. unfold py_bind. rewrite Ea. done. }
      split.
      { rewrite Hknown. simpl. set_solver. }
      destruct (result_of _) as [e|out]; [done|].
      destruct Hres as (-> & -> & Hstore). repeat split; try done.
      simpl. rewrite decide_True by done. done.
    + set (self2 := set_known_signals _ self1).
      destruct (IH (newly ++ [name]) self2)
        as (Hev & Hnd & pre & post & done & store_pre & -> & Hconv & Happ
            & Hknown & Hres).
      split; [done|]. split; [done|].
      exists ((name, value) :: pre), post, ((name, v) :: done), store_pre.
      split; [done|]. split; [by constructor|]. split.
      { simpl. unfold py_bind. rewrite Ea. done. }
      split.
      { rewrite Hknown. simpl. set_solver. }
      destruct (result_of _) as [e|out]; [done|].
      destruct Hres as (-> & -> & Hstore). repeat split; try done.
      simpl. rewrite decide_False by done. by rewrite <- app_assoc.
Qed.

(** *** One frame *)

Definition record (ev : event) (self : t) : t :=
  Build (_data_store self) (_no_decode self) (_known_signals self)
        (events self ++ [ev]).

(** The listener after an [except] clause has dealt with [e]. *)
Definition after_exception (msg : Message) (e : pyexn) (self : t) : t :=
  match e with
  | KeyError =>
    set_no_decode ({[arbitration_id msg]} ∪ _no_decode self)
      (record (log_cannot_decode (arbitration_id msg)) self)
  | _ => record (log_error_decoding (arbitration_id msg) e) self
  end.

(** The listener after the callback was offered the new names. *)
Definition after_callback (new_signals_callback : option callback)
    (msg : Message) (newly : list string) (self : t) : t :=
  match newly, new_signals_callback with
  | _ :: _, Some call =>
    match call newly with
    | inr _ => record (new_signals newly) self
    | inl e => after_exception msg e (record (new_signals newly) self)
    end
  | _, _ => self
  end.

Lemma after_exception_store (msg : Message) (e : pyexn) (self : t) :
  _data_store (after_exception msg e self) = _data_store self /\
  _known_signals (after_exception msg e self) = _known_signals self.
Proof. by destruct e. Qed.

Lemma after_callback_store (cb : option callback) (msg : Message)
    (newly : list string) (self : t) :
  _data_store (after_callback cb msg newly self) = _data_store self /\
  _known_signals (after_callback cb msg newly self) = _known_signals self.
Proof.
  unfold after_callback. destruct newly as [|n newly]; [done|].
  destruct cb as [call|]; [|done].
  destruct (call _) as [e|[]]; [|done].
  by rewrite !(proj1 (after_exception_store _ _ _)),
             !(proj2 (after_exception_store _ _ _)).
Qed.

Lemma frame_dropped (db : Database) (cb : option callback) (msg : Message)
    (self : t) :
  arbitration_id msg ∈ _no_decode self ->
  on_message_received db cb msg self = (inr tt, self).
Proof.
  intros Hin. unfold on_message_received, py_bind, read.
  rewrite decide_True by done. done.
Qed.

Lemma handler_catches (msg : Message) (e : pyexn) (self : t) :
  (match e with
   | KeyError =>
     py_bind (emit (log_cannot_decode (arbitration_id msg)))
       (fun _ => update (fun self =>
          set_no_decode ({[arbitration_id msg]} ∪ _no_decode self) self))
   | _ => emit (log_error_decoding (arbitration_id msg) e)
   end) self = (inr tt, after_exception msg e self).
Proof. destruct e; reflexivity. Qed.

(** A frame that is not dropped at once: the handler returns normally,
    whatever was raised inside. *)
Lemma frame_handled (db : Database) (cb : option callback) (msg : Message)
    (self : t) :
  arbitration_id msg ∉ _no_decode self ->
  on_message_received db cb msg self
  = (inr tt,
     match get_message_by_frame_id db (arbitration_id msg) with
     | None => after_exception msg KeyError self
     | Some m =>
       match decode m (data msg) with
       | inl e => after_exception msg e self
       | inr signals =>
         match each_signal msg signals [] self with
         | (inl e, self1) => after_exception msg e self1
         | (inr newly, self1) => after_callback cb msg newly self1
         end
       end
     end).
Proof.
  intros Hout. unfold on_message_received, py_bind at 1, read.
  rewrite decide_False by done.
  unfold try_except, py_bind, eval.
  destruct (get_message_by_frame_id db _) as [m|];
    [|apply (handler_catches msg KeyError)].
  destruct (decode m _) as [e|signals]; [apply handler_catches|].
  destruct (each_signal _ _ _ _) as [[e|newly] self1];
    [apply handler_catches|].
  unfold after_callback.
  destruct newly as [|n newly]; [done|].
  destruct cb as [call|]; [|done].
  unfold emit, update, py_ret. fold (record (new_signals (n :: newly)) self1).
  destruct (call _) as [e|[]]; [apply handler_catches|done].
Qed.

Lemma frame_returns (db : Database) (cb : option callback) (msg : Message)
    (self : t) :
  result_of (on_message_received db cb msg self) = inr tt.
Proof.
  destruct (decide (arbitration_id msg ∈ _no_decode self)).
  - by rewrite frame_dropped.
  - by rewrite frame_handled.
Qed.

(** *** What any run of frames can do *)

(** The events a listener in state [self] can still add: an unresolved
    record only for an id not yet in the negative cache, a notification only
    for names not yet known. *)
Definition possible (self : t) (ev : event) : Prop :=
  match ev with
  | log_cannot_decode arb_id => arb_id ∉ _no_decode self
  | log_error_decoding _ _ => True
  | new_signals names => Forall (fun n => n ∉ _known_signals self) names
  end.

(** [later] continues [self]: both sets only grow, events are only added,
    and each added event was possible in [self]. *)
Definition continues (self later : t) : Prop :=
  _no_decode self ⊆ _no_decode later /\
  _known_signals self ⊆ _known_signals later /\
  exists added,
    events later = events self ++ added /\ Forall (possible self) added.

Lemma continues_refl (self : t) : continues self self.
Proof.
  split; [done|]. split; [done|]. exists []. by rewrite app_nil_r.
Qed.

Lemma possible_mono (self later : t) (ev : event) :
  continues self later -> possible later ev -> possible self ev.
Proof.
  intros (Hnd & Hk & _). destruct ev as [a|a e|names]; simpl; [set_solver|done|].
  intros H. eapply Forall_impl; [exact H|]. set_solver.
Qed.

Lemma continues_trans (a b c : t) :
  continues a b -> continues b c -> continues a c.
Proof.
  intros Hab Hbc.
  pose proof Hab as (Hnd1 & Hk1 & add1 & He1 & Hp1).
  pose proof Hbc as (Hnd2 & Hk2 & add2 & He2 & Hp2).
  split; [set_solver|]. split; [set_solver|].
  exists (add1 ++ add2). split; [by rewrite He2, He1, app_assoc|].
  apply Forall_app. split; [done|].
  eapply Forall_impl; [exact Hp2|]. intros ev. by apply possible_mono.
Qed.

Lemma continues_record (self mid : t) (ev : event) :
  continues self mid -> possible mid ev -> continues self (record ev mid).
Proof.
  intros Hc Hp. apply (continues_trans self mid); [done|].
  split; [done|]. split; [done|]. exists [ev]. split; [done|].
  by constructor.
Qed.

Lemma continues_after_exception (self mid : t) (msg : Message) (e : pyexn) :
  continues self mid -> arbitration_id msg ∉ _no_decode mid ->
  continues self (after_exception msg e mid).
Proof.
  intros Hc Hout.
  assert (continues self
            (set_no_decode ({[arbitration_id msg]} ∪ _no_decode mid)
               (record (log_cannot_decode (arbitration_id msg)) mid))).
  { apply (continues_trans self
             (record (log_cannot_decode (arbitration_id msg)) mid)).
    - by apply continues_record.
    - split; [simpl; set_solver|]. split; [done|].
      exists []. by rewrite app_nil_r. }
  destruct e; try done; by apply continues_record.
Qed.

Lemma each_signal_continues (msg : Message)
    (signals : list (string * pyvalue)) (newly : list string) (self : t) :
  continues self (state_of (each_signal msg signals newly self)).
Proof.
  destruct (each_signal_effect msg signals newly self)
    as (Hev & Hnd & pre & post & done & store_pre & _ & _ & _ & Hk & _).
  split; [by rewrite Hnd|]. split; [rewrite Hk; set_solver|].
  exists []. by rewrite app_nil_r.
Qed.

Lemma frame_continues (db : Database) (cb : option callback) (msg : Message)
    (self : t) :
  continues self (state_of (on_message_received db cb msg self)).
Proof.
  destruct (decide (arbitration_id msg ∈ _no_decode self)) as [Hin|Hout].
  { rewrite frame_dropped by done. apply continues_refl. }
  rewrite frame_handled by done. unfold state_of, snd.
  destruct (get_message_by_frame_id db _) as [m|];
    [|by apply continues_after_exception, Hout; apply continues_refl].
  destruct (decode m _) as [e|signals];
    [by apply continues_after_exception, Hout; apply continues_refl|].
  pose proof (each_signal_continues msg signals [] self) as Hc.
  destruct (each_signal_effect msg signals [] self)
    as (Hev & Hnd & pre & post & done & store_pre & _ & _ & _ & Hk & Hres).
  destruct (each_signal msg signals [] self) as [[e|newly] self1];
    unfold state_of, result_of in *; simpl in *.
  { apply continues_after_exception; [done|]. by rewrite Hnd. }
  destruct Hres as (_ & -> & _).
  assert (Hnew : continues self
                   (record (new_signals (first_seen (_known_signals self) pre.*1))
                      self1)).
  { apply (continues_trans self
             (Build (_data_store self1) (_no_decode self1)
                (_known_signals self) (events self1 ++
                   [new_signals (first_seen (_known_signals self) pre.*1)]))).
    - split; [by rewrite Hnd|]. split; [done|].
      exists [new_signals (first_seen (_known_signals self) pre.*1)].
      simpl. rewrite Hev. split; [done|]. constructor; [|done].
      apply first_seen_fresh.
    - split; [done|]. split; [simpl; rewrite Hk; set_solver|].
      exists []. by rewrite app_nil_r. }
  unfold after_callback.
  destruct (first_seen _ _) as [|n rest] eqn:Efs; [done|].
  destruct cb as [call|]; [|done].
  destruct (call _) as [e|[]]; [|done].
  apply continues_after_exception; [done|]. simpl. by rewrite Hnd.
Qed.

Lemma deliver_continues (db : Database) (cb : option callback)
    (msgs : list Message) (self : t) :
  result_of (deliver db cb msgs self) = inr tt /\
  continues self (state_of (deliver db cb msgs self)).
Proof.
  revert self. induction msgs as [|msg rest IH]; intros self.
  - split; [done|]. apply continues_refl.
  - cbn [deliver]. unfold py_bind.
    pose proof (frame_returns db cb msg self) as Hr.
    pose proof (frame_continues db cb msg self) as Hc.
    destruct (on_message_received db cb msg self) as [r self1].
    unfold result_of, state_of in *; simpl in *. subst r.
    destruct (IH self1) as [Hr1 Hc1]. split; [done|].
    by apply (continues_trans self self1).
Qed.

(** *** Frames that fail *)

Lemma notifications_record (ev : event) (self : t) :
  notifications (record ev self)
  = notifications self ++
    match ev with new_signals names => [names] | _ => [] end.
Proof.
  unfold notifications, record. simpl. rewrite omap_app.
  by destruct ev.
Qed.

Lemma no_unresolved_record_possible (arb_id : Z) (self : t)
    (added : list event) :
  Forall (possible self) added -> arb_id ∈ _no_decode self ->
  filter (fun ev => is_unresolved_record arb_id ev = true) added = [].
Proof.
  intros Hposs Hin. induction Hposs as [|ev added Hev _ IH]; [done|].
  rewrite filter_cons, IH.
  destruct ev as [a|a e|names]; simpl; try done.
  case_bool_decide as Ha; [|done]. subst a. done.
Qed.

Lemma unresolved_records_continues (arb_id : Z) (self later : t) :
  continues self later -> arb_id ∈ _no_decode self ->
  unresolved_records arb_id later = unresolved_records arb_id self.
Proof.
  intros (_ & _ & added & Hev & Hposs) Hin. unfold unresolved_records.
  rewrite Hev, filter_app, length_app.
  rewrite (no_unresolved_record_possible arb_id self added) by done.
  simpl. lia.
Qed.

(** Once an id is in the negative cache, every frame that carries it is
    dropped at once, whatever was delivered in between and whatever the
    schema says. *)
Lemma cached_id_stays_dropped (arb_id : Z) (self : t)
    (db : Database) (cb : option callback) (later : list Message) :
  arb_id ∈ _no_decode self ->
  let self2 := state_of (deliver db cb later self) in
  unresolved_records arb_id self2 = unresolved_records arb_id self /\
  forall db' cb' msg',
    arbitration_id msg' = arb_id ->
    on_message_received db' cb' msg' self2 = (inr tt, self2).
Proof.
  intros Hin self2.
  destruct (deliver_continues db cb later self) as [_ Hc].
  fold self2 in Hc. split; [by apply unresolved_records_continues|].
  intros db' cb' msg' <-. apply frame_dropped.
  destruct Hc as (Hnd & _). set_solver.
Qed.

(** C5. A frame whose id resolves but whose payload does not decode: the
    handler returns normally, logs one record and leaves the store, the
    first-seen set and the notifications as they were. *)
Theorem decode_failure_is_contained
    (db : Database) (cb : option callback) (msg : Message) (self : t)
    (m : DbMessage) (e : pyexn) :
  arbitration_id msg ∉ _no_decode self ->
  get_message_by_frame_id db (arbitration_id msg) = Some m ->
  decode m (data msg) = inl e ->
  exists self',
    on_message_received db cb msg self = (inr tt, self') /\
    _data_store self' = _data_store self /\
    _known_signals self' = _known_signals self /\
    notifications self' = notifications self /\
    events self'
    = events self ++
      [if decide (e = KeyError)
       then log_cannot_decode (arbitration_id msg)
       else log_error_decoding (arbitration_id msg) e].
Proof.
  intros Hout Hres Hdec.
  exists (after_exception msg e self).
  rewrite frame_handled, Hres, Hdec by done. split; [done|].
  destruct e; simpl; repeat split; try done;
    unfold notifications; simpl; rewrite omap_app; simpl;
    by rewrite app_nil_r.
Qed.

(** C7. The first frame with an id the schema does not know puts the id
    in the negative cache and logs one record, touching nothing else; from
    then on every frame with that id is dropped at once, with no further
    record, whatever is delivered in between. *)
Theorem unresolved_id_logged_once
    (db : Database) (cb : option callback) (msg : Message) (self : t) :
  arbitration_id msg ∉ _no_decode self ->
  get_message_by_frame_id db (arbitration_id msg) = None ->
  exists self1,
    on_message_received db cb msg self = (inr tt, self1) /\
    _no_decode self1 = {[arbitration_id msg]} ∪ _no_decode self /\
    events self1 = events self ++ [log_cannot_decode (arbitration_id msg)] /\
    _data_store self1 = _data_store self /\
    _known_signals self1 = _known_signals self /\
    forall db' cb' (later : list Message),
      let self2 := state_of (deliver db' cb' later self1) in
      unresolved_records (arbitration_id msg) self2
      = S (unresolved_records (arbitration_id msg) self) /\
      forall db'' cb'' msg',
        arbitration_id msg' = arbitration_id msg ->
        on_message_received db'' cb'' msg' self2 = (inr tt, self2).
Proof.
  intros Hout Hres.
  exists (after_exception msg KeyError self).
  rewrite frame_handled, Hres by done.
  repeat split; try done.
  - destruct (cached_id_stays_dropped (arbitration_id msg)
                (after_exception msg KeyError self) db' cb' later)
      as [Hcount _]; [simpl; set_solver|].
    rewrite Hcount. unfold unresolved_records. simpl.
    rewrite filter_app, length_app. simpl.
    rewrite filter_cons, decide_True; [simpl; lia|].
    simpl. by rewrite bool_decide_true.
  - apply cached_id_stays_dropped. simpl. set_solver.
Qed.

(** C10. A [KeyError] raised by the decoding of a resolved frame is taken
    for a failed resolution: the listener ends exactly as if the schema had
    not known the id, the id is in the negative cache, and every later frame
    with it is dropped at once. *)
Theorem decode_KeyError_caches_id
    (db : Database) (cb : option callback) (msg : Message) (self : t)
    (m : DbMessage) :
  arbitration_id msg ∉ _no_decode self ->
  get_message_by_frame_id db (arbitration_id msg) = Some m ->
  decode m (data msg) = inl KeyError ->
  exists self1,
    on_message_received db cb msg self = (inr tt, self1) /\
    (forall db0,
       get_message_by_frame_id db0 (arbitration_id msg) = None ->
       on_message_received db0 cb msg self = (inr tt, self1)) /\
    arbitration_id msg ∈ _no_decode self1 /\
    forall db' cb' (later : list Message),
      let self2 := state_of (deliver db' cb' later self1) in
      forall db'' cb'' msg',
        arbitration_id msg' = arbitration_id msg ->
        on_message_received db'' cb'' msg' self2 = (inr tt, self2).
Proof.
  intros Hout Hres Hdec.
  exists (after_exception msg KeyError self).
  rewrite frame_handled, Hres, Hdec by done.
  split; [done|]. split.
  { intros db0 H0. by rewrite frame_handled, H0. }
  split; [simpl; set_solver|].
  intros db' cb' later. apply cached_id_stays_dropped. simpl. set_solver.
Qed.

(** *** Discovery notifications *)

Lemma notifications_after_exception (msg : Message) (e : pyexn) (self : t) :
  notifications (after_exception msg e self) = notifications self.
Proof.
  destruct e; unfold notifications; simpl; rewrite omap_app; simpl;
    by rewrite app_nil_r.
Qed.

(** The notifications a continuation adds name only signals that were not
    known before. *)
Lemma continues_notifications (self later : t) :
  continues self later ->
  exists notes,
    notifications later = notifications self ++ notes /\
    forall names, names ∈ notes ->
                  Forall (fun n => n ∉ _known_signals self) names.
Proof.
  intros (_ & _ & added & Hev & Hposs).
  exists (omap (fun ev => match ev with
                          | new_signals names => Some names
                          | _ => None
                          end) added).
  split; [unfold notifications; by rewrite Hev, omap_app|].
  intros names Hin. apply list_elem_of_omap in Hin as (ev & Hev' & Hnames).
  destruct ev as [a|a e|names']; try done. injection Hnames as ->.
  rewrite Forall_forall in Hposs. apply (Hposs _ Hev').
Qed.

(** With a well-formed store and values that [float()] accepts, the loop
    runs to its end. *)
Lemma each_signal_completes (msg : Message)
    (signals : list (string * pyvalue)) (newly : list string) (self : t) :
  LiveDataStore.well_formed (_data_store self) ->
  Forall (fun sv : string * pyvalue => exists v, py_float sv.2 = inr v)
         signals ->
  exists out, result_of (each_signal msg signals newly self) = inr out.
Proof.
  revert newly self.
  induction signals as [|[name value] rest IH]; intros newly self Hwf Hconv.
  - by exists newly.
  - apply Forall_cons in Hconv as [[v Hv] Hrest]. simpl in Hv.
    rewrite each_signal_cons, Hv.
    destruct (LiveDataStore.append_well_formed uninit (_data_store self)
                name (timestamp msg) v Hwf) as (store & -> & Hwf').
    destruct (decide (name ∈ _known_signals self)); by apply IH.
Qed.

(** C6. A frame that decodes gives rise to at most one discovery
    notification; it is given only when the frame has names that were not
    known, and it carries exactly those, in the order of the frame; when it
    is given, every name of the frame is recorded as known, so that no later
    frame finds it new. With a well-formed store and numeric values the
    names are recorded in any case, the store stays well formed, and with a
    callback installed the notification is given whenever there are new
    names. *)
Theorem one_notification_per_frame
    (db : Database) (cb : option callback) (msg : Message) (self : t)
    (m : DbMessage) (signals : list (string * pyvalue)) :
  arbitration_id msg ∉ _no_decode self ->
  get_message_by_frame_id db (arbitration_id msg) = Some m ->
  decode m (data msg) = inr signals ->
  NoDup signals.*1 ->
  let new_names := filter (fun n => n ∉ _known_signals self) signals.*1 in
  exists self',
    on_message_received db cb msg self = (inr tt, self') /\
    (notifications self' = notifications self \/
     (new_names <> [] /\
      notifications self' = notifications self ++ [new_names] /\
      _known_signals self'
      = _known_signals self ∪ list_to_set signals.*1)) /\
    (LiveDataStore.well_formed (_data_store self) ->
     Forall (fun sv : string * pyvalue => exists v, py_float sv.2 = inr v)
            signals ->
     _known_signals self' = _known_signals self ∪ list_to_set signals.*1 /\
     LiveDataStore.well_formed (_data_store self') /\
     (is_Some cb ->
      notifications self'
      = notifications self ++
        match new_names with [] => [] | _ => [new_names] end)).
Proof.
  intros Hout Hres Hdec Hnd new_names.
  eexists. split; [by rewrite frame_handled, Hres, Hdec|].
  pose proof (each_signal_completes msg signals [] self) as Hcompl.
  destruct (each_signal_effect msg signals [] self)
    as (Hev & _ & pre & post & done & store_pre & Hsig & _ & Happ & Hk & Hr).
  destruct (each_signal msg signals [] self) as [[e|newly] self1];
    unfold state_of, result_of in *; simpl in *.
  { (* the loop raised: nothing is announced *)
    assert (Hsame : notifications (after_exception msg e self1)
                    = notifications self).
    { rewrite notifications_after_exception. unfold notifications.
      by rewrite Hev. }
    split; [by left|]. intros Hwf Hconv.
    destruct (Hcompl Hwf Hconv) as [out Hout']. done. }
  destruct Hr as (-> & -> & Hstore). rewrite app_nil_r in Hsig. subst pre.
  rewrite first_seen_NoDup by done. fold new_names.
  assert (Hsame : notifications self1 = notifications self)
    by (unfold notifications; by rewrite Hev).
  assert (Hknown : _known_signals (after_callback cb msg new_names self1)
                   = _known_signals self ∪ list_to_set signals.*1)
    by (by rewrite (proj2 (after_callback_store _ _ _ _))).
  assert (Hwf' : LiveDataStore.well_formed (_data_store self) ->
                 LiveDataStore.well_formed
                   (_data_store (after_callback cb msg new_names self1))).
  { intros Hwf. rewrite (proj1 (after_callback_store _ _ _ _)), Hstore.
    destruct (LiveDataStore.appends_well_formed uninit (samples msg done)
                (_data_store self) Hwf) as (store' & Hrun & Hwf1).
    rewrite Hrun in Happ. by injection Happ as <-. }
  revert Hknown Hwf'. unfold after_callback.
  destruct new_names as [|n rest] eqn:En; intros Hknown Hwf'.
  { split; [by left|]. intros Hwf _. split; [done|]. split; [auto|].
    intros _. by rewrite app_nil_r. }
  destruct cb as [call|].
  - assert (Hgiven :
      notifications
        match call (n :: rest) with
        | inl e => after_exception msg e (record (new_signals (n :: rest)) self1)
        | inr _ => record (new_signals (n :: rest)) self1
        end = notifications self ++ [n :: rest]).
    { destruct (call _) as [e|[]];
        rewrite ?notifications_after_exception, notifications_record, Hsame;
        done. }
    split; [right; by split|]. intros Hwf _. split; [done|]. split; [auto|].
    done.
  - split; [left; done|]. intros Hwf _. split; [done|]. split; [auto|].
    by intros [? ?].
Qed.

(** C9. When the loop over the signals of a frame raises partway, the
    signals before the failing one have been appended to the store and are
    recorded as seen, but no notification names them: none on this frame,
    and none on any later frame. *)
Theorem partial_frame_never_announced
    (db : Database) (cb : option callback) (msg : Message) (self : t)
    (m : DbMessage) (signals : list (string * pyvalue))
    (e : pyexn) (self1 : t) :
  arbitration_id msg ∉ _no_decode self ->
  get_message_by_frame_id db (arbitration_id msg) = Some m ->
  decode m (data msg) = inr signals ->
  each_signal msg signals [] self = (inl e, self1) ->
  exists pre bad rest done store_pre self',
    signals = pre ++ bad :: rest /\
    converted pre done /\
    on_message_received db cb msg self = (inr tt, self') /\
    LiveDataStore.appends uninit (samples msg done) (_data_store self)
    = (inr tt, store_pre) /\
    ((py_float bad.2 = inl e /\ _data_store self' = store_pre) \/
     exists v,
       py_float bad.2 = inr v /\
       LiveDataStore.append uninit bad.1 (timestamp msg) v store_pre
       = (inl e, _data_store self')) /\
    _known_signals self' = _known_signals self ∪ list_to_set pre.*1 /\
    notifications self' = notifications self /\
    forall db' cb' (later : list Message),
    exists notes,
      notifications (state_of (deliver db' cb' later self'))
      = notifications self ++ notes /\
      forall names n, names ∈ notes -> n ∈ pre.*1 -> n ∉ names.
Proof.
  intros Hout Hres Hdec Hloop.
  destruct (each_signal_effect msg signals [] self)
    as (Hev & Hnd & pre & post & done & store_pre & Hsig & Hconv & Happ
        & Hknown & Hr).
  rewrite Hloop in *. unfold state_of, result_of in *; simpl in *.
  destruct Hr as (bad & rest & -> & Hbad).
  assert (Hstore : _data_store (after_exception msg e self1)
                   = _data_store self1) by by destruct e.
  assert (Hk : _known_signals (after_exception msg e self1)
               = _known_signals self1) by by destruct e.
  assert (Hnotes : notifications (after_exception msg e self1)
                   = notifications self).
  { rewrite notifications_after_exception. unfold notifications.
    by rewrite Hev. }
  exists pre, bad, rest, done, store_pre, (after_exception msg e self1).
  split; [done|]. split; [done|].
  split; [by rewrite frame_handled, Hres, Hdec, Hloop|].
  split; [done|]. split; [by rewrite Hstore|].
  split; [by rewrite Hk|]. split; [done|].
  intros db' cb' later.
  destruct (deliver_continues db' cb' later
              (after_exception msg e self1)) as [_ Hc].
  destruct (continues_notifications _ _ Hc) as (notes & Hn & Hfresh).
  exists notes. split; [unfold state_of in *; by rewrite Hn, Hnotes|].
  intros names n Hnames Hn' Hin.
  specialize (Hfresh names Hnames). rewrite Forall_forall in Hfresh.
  apply (Hfresh n Hin). rewrite Hk, Hknown. set_solver.
Qed.

End WithMemory.

(** *** A small schema and the scenarios of the specification *)

(** Frames 1 and 2 share the signal B; frame 3 never decodes; frame 4
    raises [KeyError] while decoding; frame 5 carries a value that is not a
    number between two that are; frame 6 brings D again. Any other id is
    unknown. *)
Definition demo_db : Database :=
  {| get_message_by_frame_id := fun arb_id =>
       match arb_id with
       | 1 => Some {| decode := fun _ =>
                        inr [("A", PyFloat 1); ("B", PyInt 2)] |}
       | 2 => Some {| decode := fun _ =>
                        inr [("B", PyFloat 3); ("C", PyFloat 4)] |}
       | 3 => Some {| decode := fun _ => inl DecodeError |}
       | 4 => Some {| decode := fun _ => inl KeyError |}
       | 5 => Some {| decode := fun _ =>
                        inr [("D", PyFloat 1); ("E", PyOther);
                             ("F", PyFloat 2)] |}
       | 6 => Some {| decode := fun _ =>
                        inr [("D", PyFloat 5); ("G", PyFloat 6)] |}
       | _ => None
       end |}.

Definition demo_callback : option callback := Some (fun _ => inr tt).

Definition frame (arb_id : Z) (time : float) : Message :=
  {| arbitration_id := arb_id; data := []; timestamp := time |}.

Definition fresh_listener : t := init (LiveDataStore.init 4).

Definition run (msgs : list Message) : t :=
  state_of (deliver CircularBuffer.nan_memory demo_db demo_callback msgs
              fresh_listener).

Example two_frames_two_notifications :
  events (run [frame 1 10; frame 2 11])
  = [new_signals ["A"; "B"]; new_signals ["C"]].
Proof. vm_compute. reflexivity. Qed.

Example unresolved_twice_one_record :
  events (run [frame 9 10; frame 9 11]) = [log_cannot_decode 9].
Proof. vm_compute. reflexivity. Qed.

Example undecodable_twice_two_records :
  events (run [frame 3 10; frame 3 11])
  = [log_error_decoding 3 DecodeError; log_error_decoding 3 DecodeError].
Proof. vm_compute. reflexivity. Qed.

Example partial_frame_then_recurrence :
  events (run [frame 5 10; frame 6 11])
  = [log_error_decoding 5 TypeError; new_signals ["G"]] /\
  LiveDataStore.get_arrays CircularBuffer.nan_memory "D"
    (_data_store (run [frame 5 10; frame 6 11]))
  = inr (Some ([0; 1]%float, [1; 5]%float)).
Proof. vm_compute. split; reflexivity. Qed.

Lemma decode_failure_is_contained_witness :
  exists self',
    on_message_received CircularBuffer.nan_memory demo_db demo_callback
      (frame 3 10) fresh_listener = (inr tt, self') /\
    _data_store self' = _data_store fresh_listener /\
    _known_signals self' = ∅ /\
    events self' = [log_error_decoding 3 DecodeError].
Proof.
  destruct (decode_failure_is_contained CircularBuffer.nan_memory demo_db
              demo_callback (frame 3 10) fresh_listener
              {| decode := fun _ => inl DecodeError |} DecodeError)
    as (self' & Hrun & Hstore & Hknown & _ & Hev);
    [apply not_elem_of_empty | reflexivity | reflexivity |].
  exists self'. auto.
Defined.

Lemma one_notification_per_frame_witness :
  exists self1 self2,
    on_message_received CircularBuffer.nan_memory demo_db demo_callback
      (frame 1 10) fresh_listener = (inr tt, self1) /\
    notifications self1 = [["A"; "B"]] /\
    on_message_received CircularBuffer.nan_memory demo_db demo_callback
      (frame 2 11) self1 = (inr tt, self2) /\
    notifications self2 = [["A"; "B"]; ["C"]].
Proof.
  destruct (one_notification_per_frame CircularBuffer.nan_memory demo_db
              demo_callback (frame 1 10) fresh_listener
              {| decode := fun _ => inr [("A", PyFloat 1); ("B", PyInt 2)] |}
              [("A", PyFloat 1); ("B", PyInt 2)])
    as (self1 & Hrun1 & _ & Hok1);
    [apply not_elem_of_empty | reflexivity | reflexivity
    | apply (bool_decide_unpack _); vm_compute; exact I |].
  destruct Hok1 as (Hknown1 & Hwf1 & Hgiven1);
    [apply LiveDataStore.init_well_formed; lia
    | repeat constructor; eexists; reflexivity |].
  specialize (Hgiven1 (ex_intro _ _ eq_refl)).
  assert (Hnd1 : _no_decode self1 = ∅).
  { vm_compute in Hrun1. injection Hrun1 as <-. reflexivity. }
  destruct (one_notification_per_frame CircularBuffer.nan_memory demo_db
              demo_callback (frame 2 11) self1
              {| decode := fun _ => inr [("B", PyFloat 3); ("C", PyFloat 4)] |}
              [("B", PyFloat 3); ("C", PyFloat 4)])
    as (self2 & Hrun2 & _ & Hok2);
    [rewrite Hnd1; apply not_elem_of_empty | reflexivity | reflexivity
    | apply (bool_decide_unpack _); vm_compute; exact I |].
  destruct Hok2 as (_ & _ & Hgiven2);
    [exact Hwf1 | repeat constructor; eexists; reflexivity |].
  specialize (Hgiven2 (ex_intro _ _ eq_refl)).
  exists self1, self2.
  split; [exact Hrun1|]. split; [exact Hgiven1|]. split; [exact Hrun2|].
  rewrite Hgiven2, Hgiven1, Hknown1. reflexivity.
Defined.

Lemma unresolved_id_logged_once_witness :
  exists self1,
    on_message_received CircularBuffer.nan_memory demo_db demo_callback
      (frame 9 10) fresh_listener = (inr tt, self1) /\
    events self1 = [log_cannot_decode 9] /\
    on_message_received CircularBuffer.nan_memory demo_db demo_callback
      (frame 9 11) self1 = (inr tt, self1).
Proof.
  destruct (unresolved_id_logged_once CircularBuffer.nan_memory demo_db
              demo_callback (frame 9 10) fresh_listener)
    as (self1 & Hrun & _ & Hev & _ & _ & Hlater);
    [apply not_elem_of_empty | reflexivity |].
  exists self1. split; [exact Hrun|]. split; [exact Hev|].
  destruct (Hlater demo_db demo_callback []) as [_ Hdrop].
  apply (Hdrop demo_db demo_callback (frame 9 11)). reflexivity.
Defined.

Lemma partial_frame_never_announced_witness :
  exists (pre : list (string * pyvalue)) self',
    on_message_received CircularBuffer.nan_memory demo_db demo_callback
      (frame 5 10) fresh_listener = (inr tt, self') /\
    _known_signals self' = list_to_set pre.*1 /\
    notifications self' = [] /\
    exists notes,
      notifications
        (state_of (deliver CircularBuffer.nan_memory demo_db demo_callback
                     [frame 6 11] self'))
      = notes /\
      forall names n, names ∈ notes -> n ∈ pre.*1 -> n ∉ names.
Proof.
  destruct (partial_frame_never_announced CircularBuffer.nan_memory demo_db
              demo_callback (frame 5 10) fresh_listener
              {| decode := fun _ =>
                   inr [("D", PyFloat 1); ("E", PyOther); ("F", PyFloat 2)] |}
              [("D", PyFloat 1); ("E", PyOther); ("F", PyFloat 2)]
              TypeError
              (state_of (each_signal CircularBuffer.nan_memory (frame 5 10)
                           [("D", PyFloat 1); ("E", PyOther); ("F", PyFloat 2)]
                           [] fresh_listener)))
    as (pre & bad & rest & done & store_pre & self' & Hsig & Hconv & Hrun
        & _ & Hbad & Hknown & Hnotes & Hlater);
    [apply not_elem_of_empty | reflexivity | reflexivity
    | vm_compute; reflexivity |].
  exists pre, self'. split; [exact Hrun|].
  split; [rewrite Hknown; apply (left_id_L ∅ (∪))|].
  split; [exact Hnotes|].
  destruct (Hlater demo_db demo_callback [frame 6 11]) as (notes & Hn & Hfresh).
  exists notes. split; [exact Hn|]. exact Hfresh.
Defined.

Lemma decode_KeyError_caches_id_witness :
  exists self1,
    on_message_received CircularBuffer.nan_memory demo_db demo_callback
      (frame 4 10) fresh_listener = (inr tt, self1) /\
    4 ∈ _no_decode self1 /\
    on_message_received CircularBuffer.nan_memory demo_db demo_callback
      (frame 4 11) self1 = (inr tt, self1).
Proof.
  destruct (decode_KeyError_caches_id CircularBuffer.nan_memory demo_db
              demo_callback (frame 4 10) fresh_listener
              {| decode := fun _ => inl KeyError |})
    as (self1 & Hrun & _ & Hin & Hlater);
    [apply not_elem_of_empty | reflexivity | reflexivity |].
  exists self1. split; [exact Hrun|]. split; [exact Hin|].
  apply (Hlater demo_db demo_callback [] demo_db demo_callback (frame 4 11)).
  reflexivity.
Defined.

(** *** Any run of frames *)

Section MoreFrames.

Variable uninit : nat -> float.

(** Every name the callback was ever given, oldest first. *)
Definition announced (self : t) : list string := concat (notifications self).

(** What holds of a listener between two frames: no name was announced
    twice, what was announced is recorded as known, and what is known has a
    buffer in the store. *)
Record consistent (self : t) : Prop := {
  announced_once : NoDup (announced self);
  announced_known : forall n, n ∈ announced self -> n ∈ _known_signals self;
  known_stored :
    forall n, n ∈ _known_signals self ->
              n ∈ dom (LiveDataStore._buffers (_data_store self))
}.

Lemma elem_of_concat {A} (x : A) (ls : list (list A)) :
  x ∈ concat ls <-> exists l, l ∈ ls /\ x ∈ l.
Proof.
  induction ls as [|l ls IH]; simpl.
  - split; [by intros ?%elem_of_nil|]. by intros (l & ?%elem_of_nil & _).
  - rewrite elem_of_app, IH. split.
    + intros [Hx|(l' & Hl' & Hx)]; [exists l|exists l']; set_solver.
    + intros (l' & [->|Hl']%elem_of_cons & Hx); [by left|right; eauto].
Qed.

Lemma init_consistent (data_store : LiveDataStore.t) :
  consistent (init data_store).
Proof. split; [constructor|set_solver|set_solver]. Qed.

Lemma first_seen_distinct (known : gset string) (names : list string) :
  NoDup (first_seen known names).
Proof.
  revert known. induction names as [|name rest IH]; intros known; simpl;
    [constructor|].
  destruct (decide (name ∈ known)); [apply IH|].
  constructor; [|apply IH].
  pose proof (first_seen_fresh ({[name]} ∪ known) rest) as Hf.
  rewrite Forall_forall in Hf. intros Hin%Hf. set_solver.
Qed.

Lemma consistent_after_exception (msg : Message) (e : pyexn) (self : t) :
  consistent self -> consistent (after_exception msg e self).
Proof.
  intros [H1 H2 H3].
  split; unfold announced in *; rewrite ?notifications_after_exception;
    destruct e; done.
Qed.

Lemma converted_names (msg : Message) (pre : list (string * pyvalue))
    (done : list (string * float)) :
  converted pre done -> (samples msg done).*1.*1 = pre.*1.
Proof.
  unfold converted, samples.
  induction 1 as [|[n v] [n' f] pre done [Hn _] _ IH]; [done|].
  rewrite !fmap_cons, IH. simpl in *. by rewrite Hn.
Qed.

(** The loop over a frame never removes a buffer, and the names it records
    have one. *)
Lemma each_signal_stores (msg : Message) (signals : list (string * pyvalue))
    (newly : list string) (self : t) :
  let self1 := state_of (each_signal uninit msg signals newly self) in
  dom (LiveDataStore._buffers (_data_store self))
  ⊆ dom (LiveDataStore._buffers (_data_store self1)) /\
  LiveDataStore._buffer_capacity (_data_store self1)
  = LiveDataStore._buffer_capacity (_data_store self) /\
  forall n, n ∈ _known_signals self1 ->
            n ∈ _known_signals self \/
            n ∈ dom (LiveDataStore._buffers (_data_store self1)).
Proof.
  destruct (each_signal_effect uninit msg signals newly self)
    as (Hev & Hnd & pre & post & done & store_pre & Hsig & Hconv & Happ
        & Hk & Hres).
  apply LiveDataStore.appends_dom in Happ as (H1 & H2 & H3 & H4).
  specialize (H3 eq_refl). rewrite (converted_names msg pre done Hconv) in *.
  cbv zeta.
  assert (dom (LiveDataStore._buffers store_pre)
          ⊆ dom (LiveDataStore._buffers
                   (_data_store
                      (state_of (each_signal uninit msg signals newly self))))
          /\ LiveDataStore._buffer_capacity
               (_data_store
                  (state_of (each_signal uninit msg signals newly self)))
             = LiveDataStore._buffer_capacity store_pre) as [Hstore Hcap].
  { destruct (result_of _) as [e|out].
    - destruct Hres as (bad & rest & _ & [[_ ->]|(v & _ & Ha)]); [done|].
      apply LiveDataStore.append_dom in Ha as (? & _ & _ & ?). done.
    - destruct Hres as (_ & _ & ->). done. }
  split; [set_solver|]. split; [congruence|].
  intros n. rewrite Hk. set_solver.
Qed.

Lemma each_signal_consistent (msg : Message)
    (signals : list (string * pyvalue)) (newly : list string) (self : t) :
  consistent self ->
  consistent (state_of (each_signal uninit msg signals newly self)).
Proof.
  intros [H1 H2 H3].
  destruct (each_signal_stores msg signals newly self) as (Hd & _ & Hkd).
  destruct (each_signal_effect uninit msg signals newly self)
    as (Hev & _ & pre & post & done & store_pre & _ & _ & _ & Hk & _).
  cbv zeta in *.
  split; unfold announced, notifications in *.
  - by rewrite Hev.
  - rewrite Hev, Hk. set_solver.
  - intros n [Hn|Hn]%Hkd; [|done]. set_solver.
Qed.

Lemma frame_consistent (db : Database) (cb : option callback) (msg : Message)
    (self : t) :
  consistent self ->
  consistent (state_of (on_message_received uninit db cb msg self)).
Proof.
  intros Hc.
  destruct (decide (arbitration_id msg ∈ _no_decode self)) as [Hin|Hout].
  { by rewrite frame_dropped. }
  rewrite frame_handled by done. unfold state_of, snd.
  destruct (get_message_by_frame_id db _) as [m|];
    [|by apply consistent_after_exception].
  destruct (decode m _) as [e|signals];
    [by apply consistent_after_exception|].
  pose proof (each_signal_consistent msg signals [] self Hc) as Hc1.
  destruct (each_signal_effect uninit msg signals [] self)
    as (Hev & _ & pre & post & done & store_pre & _ & _ & _ & Hk & Hres).
  destruct (each_signal uninit msg signals [] self) as [[e|newly] self1];
    unfold state_of, result_of in *; simpl in *.
  { by apply consistent_after_exception. }
  destruct Hres as (_ & -> & _).
  assert (Hrec : consistent
            (record (new_signals (first_seen (_known_signals self) pre.*1))
                    self1)).
  { destruct Hc as [H1 H2 H3], Hc1 as [H1' H2' H3'].
    pose proof (first_seen_fresh (_known_signals self) pre.*1) as Hfresh.
    pose proof (first_seen_known (_known_signals self) pre.*1) as Hin.
    rewrite Forall_forall in Hfresh, Hin.
    assert (Ha : announced self1 = announced self)
      by (unfold announced, notifications; by rewrite Hev).
    split; unfold announced in *;
      rewrite ?notifications_record, ?concat_app;
      cbn [concat record _known_signals _data_store];
      rewrite ?app_nil_r, ?Ha.
    - apply NoDup_app. split; [done|]. split; [|apply first_seen_distinct].
      intros n Hn%H2 Hn'%Hfresh. done.
    - intros n [Hn|Hn]%elem_of_app; [rewrite Hk; set_solver|].
      rewrite Hk. apply Hin in Hn. set_solver.
    - done. }
  unfold after_callback.
  destruct (first_seen _ _) as [|n rest] eqn:Efs; [done|].
  destruct cb as [call|]; [|done].
  destruct (call _) as [e|[]]; [|done].
  by apply consistent_after_exception.
Qed.

Lemma deliver_consistent (db : Database) (cb : option callback)
    (msgs : list Message) (self : t) :
  consistent self -> consistent (state_of (deliver uninit db cb msgs self)).
Proof.
  revert self. induction msgs as [|msg rest IH]; intros self Hc; [done|].
  cbn [deliver]. unfold py_bind.
  pose proof (frame_returns uninit db cb msg self) as Hr.
  pose proof (frame_consistent db cb msg self Hc) as Hc1.
  destruct (on_message_received uninit db cb msg self) as [r self1].
  unfold result_of, state_of in *; simpl in *. subst r. by apply IH.
Qed.

(** Whatever frames arrive, and whatever the schema and the callback do,
    no signal name is given to the callback twice. *)
Theorem no_signal_announced_twice
    (data_store : LiveDataStore.t) (db : Database) (cb : option callback)
    (msgs : list Message) :
  NoDup (concat (notifications
                   (state_of (deliver uninit db cb msgs (init data_store))))).
Proof.
  apply (announced_once _
           (deliver_consistent db cb msgs _ (init_consistent data_store))).
Qed.

(** Every name the callback was given, and every name recorded as seen, has
    a buffer in the store: the plots can ask for its data. *)
Theorem announced_signals_are_stored
    (data_store : LiveDataStore.t) (db : Database) (cb : option callback)
    (msgs : list Message) :
  let self := state_of (deliver uninit db cb msgs (init data_store)) in
  (forall names n,
     names ∈ notifications self -> n ∈ names -> n ∈ _known_signals self) /\
  forall n,
    n ∈ _known_signals self ->
    n ∈ LiveDataStore.get_signal_names (_data_store self) /\
    LiveDataStore.get_arrays uninit n (_data_store self) <> inr None.
Proof.
  intros self.
  destruct (deliver_consistent db cb msgs _ (init_consistent data_store))
    as [_ H2 H3].
  fold self in H2, H3. split.
  - intros names n Hnames Hn. apply H2. unfold announced.
    apply elem_of_concat. by exists names.
  - intros n Hn%H3. split; [by apply LiveDataStore.get_signal_names_elem|].
    apply elem_of_dom in Hn as [buf Hbuf].
    unfold LiveDataStore.get_arrays. rewrite Hbuf.
    by destruct (CircularBuffer.get_arrays uninit buf).
Qed.



Lemma converted_functional (pre : list (string * pyvalue))
    (done1 done2 : list (string * float)) :
  converted pre done1 -> converted pre done2 -> done1 = done2.
Proof.
  unfold converted. intros H1. revert done2.
  induction H1 as [|[n v] [n1 f1] pre done1 [Hn1 Hf1] _ IH];
    intros done2 H2.
  - by apply Forall2_nil_inv_l in H2.
  - apply Forall2_cons_inv_l in H2 as ([n2 f2] & done2' & [Hn2 Hf2] & H2 & ->).
    simpl in *. f_equal; [|by apply IH]. congruence.
Qed.

(** A frame that resolves and decodes to numbers, arriving at a listener
    with a well-formed store: every signal of the frame is appended at the
    frame's timestamp, in the order of the frame, and recorded as seen,
    whatever the callback does. *)
Theorem good_frame_is_stored
    (db : Database) (cb : option callback) (msg : Message) (self : t)
    (m : DbMessage) (signals : list (string * pyvalue))
    (done : list (string * float)) :
  arbitration_id msg ∉ _no_decode self ->
  get_message_by_frame_id db (arbitration_id msg) = Some m ->
  decode m (data msg) = inr signals ->
  converted signals done ->
  LiveDataStore.well_formed (_data_store self) ->
  exists self',
    on_message_received uninit db cb msg self = (inr tt, self') /\
    LiveDataStore.appends uninit (samples msg done) (_data_store self)
    = (inr tt, _data_store self') /\
    _known_signals self' = _known_signals self ∪ list_to_set signals.*1.
Proof.
  intros Hout Hres Hdec Hconv Hwf.
  eexists. split; [by rewrite frame_handled, Hres, Hdec|].
  destruct (each_signal_completes uninit msg signals [] self Hwf)
    as [out Hout'].
  { unfold converted in Hconv. apply Forall_forall. intros sv Hsv.
    apply list_elem_of_lookup in Hsv as [i Hi].
    destruct (Forall2_lookup_l _ _ _ _ _ Hconv Hi) as (nf & _ & _ & Hf).
    by exists nf.2. }
  destruct (each_signal_effect uninit msg signals [] self)
    as (_ & _ & pre & post & done' & store_pre & Hsig & Hconv' & Happ
        & Hk & Hr).
  destruct (each_signal uninit msg signals [] self) as [[e|newly] self1];
    unfold state_of, result_of in *; simpl in *; [done|].
  destruct Hr as (-> & _ & Hstore). rewrite app_nil_r in Hsig.
  subst pre store_pre.
  rewrite (converted_functional signals done done' Hconv Hconv').
  rewrite (proj1 (after_callback_store _ _ _ _)),
          (proj2 (after_callback_store _ _ _ _)). done.
Qed.

End MoreFrames.

Example raising_callback_run :
  let self :=
    state_of (deliver CircularBuffer.nan_memory demo_db
                (Some (fun _ => inl ValueError))
                [frame 1 10; frame 2 11; frame 1 12] fresh_listener) in
  notifications self = [["A"; "B"]; ["C"]] /\
  LiveDataStore.get_signal_names (_data_store self) = ["A"; "B"; "C"].
Proof. vm_compute. split; reflexivity. Qed.

Lemma good_frame_is_stored_witness :
  exists self',
    on_message_received CircularBuffer.nan_memory demo_db
      (Some (fun _ => inl ValueError)) (frame 1 10) fresh_listener
    = (inr tt, self') /\
    LiveDataStore.appends CircularBuffer.nan_memory
      [("A", 10, 1); ("B", 10, 2)]%float (LiveDataStore.init 4)
    = (inr tt, _data_store self') /\
    _known_signals self' = ∅ ∪ list_to_set ["A"; "B"].
Proof.
  apply (good_frame_is_stored CircularBuffer.nan_memory demo_db
           (Some (fun _ => inl ValueError)) (frame 1 10) fresh_listener
           {| decode := fun _ => inr [("A", PyFloat 1); ("B", PyInt 2)] |}
           [("A", PyFloat 1); ("B", PyInt 2)]
           [("A", 1%float); ("B", 2%float)]).
  - apply not_elem_of_empty.
  - reflexivity.
  - reflexivity.
  - repeat constructor.
  - apply LiveDataStore.init_well_formed. lia.
Defined.
End DecoderListener.
